(** * DJ Harmonic Toolkit: key model, content fingerprint, library scan
      and compatibility query

    A shallow embedding of [dj_toolkit.py] (class [DJToolkit]).

    Python [str] values are modelled as Rocq strings holding the UTF-8
    bytes of the text, so ["F♯"] is the four bytes [46 E2 99 AF].  Python
    dicts are [gmap]s built by successive insertion (a later binding of a
    key replaces an earlier one, as in a dict literal or comprehension);
    Python sets are [gset]s.  [None] is [None] of an option type. *)

From Stdlib Require Import Ascii String QArith Qabs Qround DecimalString Lqa.
From stdpp Require Import gmap strings list fin_maps sorting.

Open Scope string_scope.

(** ** Python helpers *)

Module Py.

(** [dict(items)]: later items override earlier ones. *)
Definition dict_of_items {V} (items : list (string * V)) : gmap string V :=
  foldl (fun d kv => <[kv.1 := kv.2]> d) ∅ items.

(** [d.update(items)]. *)
Definition dict_update {V} (d : gmap string V) (items : list (string * V))
  : gmap string V :=
  foldl (fun d kv => <[kv.1 := kv.2]> d) d items.

(** UTF-8 encoding of one code point of the Basic Multilingual Plane. *)
Definition utf8 (cp : N) : list ascii :=
  if (cp <? 128)%N then [ascii_of_N cp]
  else if (cp <? 2048)%N then
    [ascii_of_N (192 + cp / 64); ascii_of_N (128 + cp mod 64)]
  else
    [ascii_of_N (224 + cp / 4096);
     ascii_of_N (128 + (cp / 64) mod 64);
     ascii_of_N (128 + cp mod 64)].

(** The code points [str.strip()] removes: those for which
    [str.isspace()] holds. *)
Definition whitespace_code_points : list N :=
  [9; 10; 11; 12; 13; 28; 29; 30; 31; 32; 133; 160; 5760;
   8192; 8193; 8194; 8195; 8196; 8197; 8198; 8199; 8200; 8201; 8202;
   8232; 8233; 8239; 8287; 12288]%N.

Definition whitespace : list (list ascii) := utf8 <$> whitespace_code_points.

Fixpoint is_prefix (p l : list ascii) : bool :=
  match p, l with
  | [], _ => true
  | a :: p', b :: l' => if decide (a = b) then is_prefix p' l' else false
  | _ :: _, [] => false
  end.

(** Drop leading occurrences of the patterns; [fuel] bounds the number
    of patterns dropped, and the length of the text is always enough. *)
Fixpoint drop_leading (pats : list (list ascii)) (fuel : nat)
    (l : list ascii) : list ascii :=
  match fuel with
  | O => l
  | S fuel' =>
      match List.find (fun p => is_prefix p l) pats with
      | Some p => drop_leading pats fuel' (drop (length p) l)
      | None => l
      end
  end.

Definition lstrip (l : list ascii) : list ascii :=
  drop_leading whitespace (length l) l.

Definition rstrip (l : list ascii) : list ascii :=
  reverse (drop_leading (reverse <$> whitespace) (length l) (reverse l)).

(** [s.strip()] *)
Definition strip (s : string) : string :=
  string_of_list_ascii (rstrip (lstrip (list_ascii_of_string s))).

(** Truthiness of an optional string: [None] and [""] are falsy. *)
Definition truthy (s : option string) : bool :=
  match s with
  | None => false
  | Some s => negb (String.eqb s "")
  end.

End Py.

(** ** KeyModel: [init_harmonic_compatibility], [normalize_key],
       [get_all_compatible_keys] *)

Definition harmonic_compatibility_items : list (string * list string) :=
  [ (* Major keys *)
    ("C",  ["C"; "F"; "G"; "Am"; "Dm"; "Em"]);
    ("C♯", ["C♯"; "F♯"; "G♯"; "A♯m"; "D♯m"; "E♯m"]);
    ("D♭", ["D♭"; "G♭"; "A♭"; "B♭m"; "E♭m"; "Fm"]);
    ("D",  ["D"; "G"; "A"; "Bm"; "Em"; "F♯m"]);
    ("E♭", ["E♭"; "A♭"; "B♭"; "Cm"; "Fm"; "Gm"]);
    ("E",  ["E"; "A"; "B"; "C♯m"; "F♯m"; "G♯m"]);
    ("F",  ["F"; "B♭"; "C"; "Dm"; "Gm"; "Am"]);
    ("F♯", ["F♯"; "B"; "C♯"; "D♯m"; "G♯m"; "A♯m"]);
    ("G♭", ["G♭"; "B"; "D♭"; "E♭m"; "A♭m"; "B♭m"]);
    ("G",  ["G"; "C"; "D"; "Em"; "Am"; "Bm"]);
    ("A♭", ["A♭"; "D♭"; "E♭"; "Fm"; "B♭m"; "Cm"]);
    ("A",  ["A"; "D"; "E"; "F♯m"; "Bm"; "C♯m"]);
    ("B♭", ["B♭"; "E♭"; "F"; "Gm"; "Cm"; "Dm"]);
    ("B",  ["B"; "E"; "F♯"; "G♯m"; "C♯m"; "D♯m"]);
    (* Minor keys *)
    ("Am",  ["Am"; "Dm"; "Em"; "C"; "F"; "G"]);
    ("A♯m", ["A♯m"; "D♯m"; "E♯m"; "C♯"; "F♯"; "G♯"]);
    ("B♭m", ["B♭m"; "E♭m"; "Fm"; "D♭"; "G♭"; "A♭"]);
    ("Bm",  ["Bm"; "Em"; "F♯m"; "D"; "G"; "A"]);
    ("Cm",  ["Cm"; "Fm"; "Gm"; "E♭"; "A♭"; "B♭"]);
    ("C♯m", ["C♯m"; "F♯m"; "G♯m"; "E"; "A"; "B"]);
    ("Dm",  ["Dm"; "Gm"; "Am"; "F"; "B♭"; "C"]);
    ("D♯m", ["D♯m"; "G♯m"; "A♯m"; "F♯"; "B"; "C♯"]);
    ("E♭m", ["E♭m"; "A♭m"; "B♭m"; "G♭"; "B"; "D♭"]);
    ("Em",  ["Em"; "Am"; "Bm"; "G"; "C"; "D"]);
    ("Fm",  ["Fm"; "B♭m"; "Cm"; "A♭"; "D♭"; "E♭"]);
    ("F♯m", ["F♯m"; "Bm"; "C♯m"; "A"; "D"; "E"]);
    ("Gm",  ["Gm"; "Cm"; "Dm"; "B♭"; "E♭"; "F"]);
    ("G♯m", ["G♯m"; "C♯m"; "D♯m"; "B"; "E"; "F♯"]) ].

Definition harmonic_compatibility : gmap string (list string) :=
  Py.dict_of_items harmonic_compatibility_items.

(** Camelot wheel mapping (traditional to Camelot), in source order. *)
Definition camelot_mapping_items : list (string * string) :=
  [ (* Major keys (B side) *)
    ("C", "8B"); ("D♭", "3B"); ("D", "10B"); ("E♭", "5B"); ("E", "12B");
    ("F", "7B"); ("F♯", "2B"); ("G♭", "2B"); ("G", "9B"); ("A♭", "4B");
    ("A", "11B"); ("B♭", "6B"); ("B", "1B");
    (* Minor keys (A side) *)
    ("Am", "8A"); ("B♭m", "3A"); ("Bm", "10A"); ("Cm", "5A"); ("C♯m", "12A");
    ("Dm", "7A"); ("D♯m", "2A"); ("E♭m", "2A"); ("Em", "9A"); ("Fm", "4A");
    ("F♯m", "11A"); ("Gm", "6A"); ("G♯m", "1A") ].

Definition camelot_mapping : gmap string string :=
  Py.dict_of_items camelot_mapping_items.

(** The alternative notations added by [camelot_to_traditional.update]. *)
Definition alternative_notation_items : list (string * string) :=
  [ ("8B (C)", "C"); ("3B (D♭)", "D♭"); ("10B (D)", "D"); ("5B (E♭)", "E♭");
    ("12B (E)", "E"); ("7B (F)", "F"); ("2B (F♯/G♭)", "F♯"); ("9B (G)", "G");
    ("4B (A♭)", "A♭"); ("11B (A)", "A"); ("6B (B♭)", "B♭"); ("1B (B)", "B");
    ("8A (Am)", "Am"); ("3A (B♭m)", "B♭m"); ("10A (Bm)", "Bm"); ("5A (Cm)", "Cm");
    ("12A (C♯m)", "C♯m"); ("7A (Dm)", "Dm"); ("2A (D♯m/E♭m)", "D♯m");
    ("9A (Em)", "Em"); ("4A (Fm)", "Fm"); ("11A (F♯m)", "F♯m"); ("6A (Gm)", "Gm");
    ("1A (G♯m)", "G♯m") ].

(** [{v: k for k, v in camelot_mapping.items()}] followed by the update.
    The keys of [camelot_mapping_items] are pairwise distinct, so
    [camelot_mapping.items()] lists them in source order. *)
Definition camelot_to_traditional : gmap string string :=
  Py.dict_update
    (Py.dict_of_items ((fun kv : string * string => (kv.2, kv.1)) <$> camelot_mapping_items))
    alternative_notation_items.

Definition normalize_key (key : option string) : option string :=
  match key with
  | None => None
  | Some key =>
      if negb (Py.truthy (Some key)) then None
      else
        let key := Py.strip key in
        if String.eqb key "D♯m/E♭m" then Some "D♯m"
        else if String.eqb key "F♯/G♭" then Some "F♯"
        else match camelot_to_traditional !! key with
             | Some trad => Some trad
             | None => Some key
             end
  end.

(** The loop that adds, for each compatible traditional key with a
    Camelot code, that code and the combined spelling. *)
Definition add_camelot (all_compatible : gset string) (trad_key : string)
  : gset string :=
  match camelot_mapping !! trad_key with
  | Some camelot_key =>
      {[ camelot_key ++ " (" ++ trad_key ++ ")" ]} ∪ ({[ camelot_key ]} ∪ all_compatible)
  | None => all_compatible
  end.

(** The loop over the snapshot [list(all_compatible)]. *)
Definition add_alternative (all_compatible : gset string) (key : string)
  : gset string :=
  if String.eqb key "D♯m" then {[ "E♭m" ]} ∪ ({[ "D♯m/E♭m" ]} ∪ all_compatible)
  else if String.eqb key "F♯" then {[ "G♭" ]} ∪ ({[ "F♯/G♭" ]} ∪ all_compatible)
  else all_compatible.

(** The result of the source is [list(all_compatible)], a list in an
    unspecified order without repetitions; it is used for membership and
    emptiness only, so the set itself is returned. *)
Definition get_all_compatible_keys (input_key : option string) : gset string :=
  match normalize_key input_key with
  | None => ∅
  | Some normalized_key =>
      if negb (Py.truthy (Some normalized_key)) then ∅
      else
        let compatible_traditional :=
          default [normalized_key] (harmonic_compatibility !! normalized_key) in
        let all_compatible : gset string := list_to_set compatible_traditional in
        let all_compatible := foldl add_camelot all_compatible compatible_traditional in
        foldl add_alternative all_compatible (elements all_compatible)
  end.

(** ** ContentFingerprint: [get_file_hash] *)

(** A binary file opened for reading: its bytes and the stream position. *)
Module BinaryFile.

Record handle := { content : list Byte.byte; pos : Z }.

(** [open(file_path, "rb")] of a file holding [bytes]. *)
Definition opened (bytes : list Byte.byte) : handle :=
  {| content := bytes; pos := 0 |}.

(** [f.read(n)]: at most [n] bytes from the position, which advances. *)
Definition read (n : Z) (f : handle) : list Byte.byte * handle :=
  let data := take (Z.to_nat n) (drop (Z.to_nat (pos f)) (content f)) in
  (data, {| content := content f; pos := pos f + Z.of_nat (length data) |}).

(** [f.seek(offset, 2)]: position relative to the end of the file; a
    negative resulting position raises [OSError], here [None]. *)
Definition seek_end (offset : Z) (f : handle) : option handle :=
  let target := (Z.of_nat (length (content f)) + offset)%Z in
  if (target <? 0)%Z then None
  else Some {| content := content f; pos := target |}.

End BinaryFile.

Definition READ_WINDOW : Z := 65536.

Section ContentFingerprint.

(** [hashlib.md5]: the hex digest of the bytes fed to [update], in order. *)
Variable md5_hexdigest : list Byte.byte → string.

(** The bytes fed to the hash by the two [update] calls, or [None] when
    the [try] block raises.  [file] is [None] when [open] raises. *)
Definition hashed_bytes (file : option (list Byte.byte)) : option (list Byte.byte) :=
  match file with
  | None => None
  | Some bytes =>
      let f := BinaryFile.opened bytes in
      let '(head, f) := BinaryFile.read READ_WINDOW f in
      match BinaryFile.seek_end (- READ_WINDOW) f with
      | None => None
      | Some f =>
          let '(tail, _) := BinaryFile.read READ_WINDOW f in
          Some (head ++ tail)%list
      end
  end.

Definition get_file_hash (file : option (list Byte.byte)) : option string :=
  md5_hexdigest <$> hashed_bytes file.

End ContentFingerprint.

(** ** CatalogStore and LibraryIndexer: [scan_music_library],
       [analyze_audio_file] *)

Record stat_result := { st_size : Z; st_mtime : Q }.

(** What [analyze_audio_file] extracts from the probe's JSON document;
    [bpm] and [key] are always [None] in the source. *)
Record analysis := {
  an_duration : Q;
  an_artist : option string;
  an_title : option string;
  an_album : option string;
  an_genre : option string;
  an_bpm : option Q;
  an_key : option string
}.

(** What the probe's JSON document holds, after the tag lookups. *)
Record probe_document := {
  doc_duration : Q;
  doc_artist : option string;
  doc_title : option string;
  doc_album : option string;
  doc_genre : option string
}.

(** Outcome of [subprocess.run(['ffprobe', ...], timeout=30)] followed by
    [json.loads]. *)
Inductive probe_result :=
  | ProbeRaised
      (* the call raised: no executable, or TimeoutExpired after 30 s *)
  | ProbeExited (returncode : Z) (document : option probe_document).
      (* [document] is [None] when decoding the output raises *)

(** The collaborators of one scan. *)
Record environment := {
  md5 : list Byte.byte → string;
  (* [file_path.stat()]; [None] when it raises *)
  stat : string → option stat_result;
  (* the bytes [open(file_path, "rb")] gives; [None] when it raises *)
  file_bytes : string → option (list Byte.byte);
  ffprobe : string → probe_result;
  (* the two readings of [time.time()] *)
  start_time : Q;
  end_time : Q
}.

Definition analyze_audio_file (env : environment) (file_path : string)
  : option analysis :=
  match ffprobe env file_path with
  | ProbeRaised => None
  | ProbeExited returncode document =>
      if negb (returncode =? 0)%Z then None
      else match document with
           | None => None
           | Some d =>
               Some {| an_duration := doc_duration d;
                       an_artist := doc_artist d;
                       an_title := doc_title d;
                       an_album := doc_album d;
                       an_genre := doc_genre d;
                       an_bpm := None;
                       an_key := None |}
           end
  end.

(** A row of [scanned_files], keyed in the catalog by its [file_path]
    (the column is UNIQUE). *)
Record scanned_file := {
  sf_file_hash : option string;
  sf_file_size : Z;
  sf_last_modified : Q;
  sf_bpm : option Q;
  sf_key : option string;
  sf_duration : Q;
  sf_artist : option string;
  sf_title : option string;
  sf_album : option string;
  sf_genre : option string
}.

Record scan_session := {
  ss_files_found : nat;
  ss_new_files : nat;
  ss_updated_files : nat;
  ss_scan_duration : Q
}.

Record scanner_db := {
  scanned_files : gmap string scanned_file;
  scan_sessions : list scan_session
}.

(** Python [!=] on optional strings and on floats. *)
Definition hash_differs (a b : option string) : bool :=
  negb (bool_decide (a = b)).

Definition mtime_differs (a b : Q) : bool := negb (Qeq_bool a b).

(** The loop state of [scan_music_library]. *)
Record scan_state := {
  rows : gmap string scanned_file;
  files_found : nat;
  new_files : nat;
  updated_files : nat
}.

(** A path is modelled by the bytes of its name on disk.  Python decodes
    them as UTF-8 and keeps every byte that does not decode as a lone
    surrogate; [str(file_path)] then cannot be encoded again, and binding
    it as the parameter of a query raises [UnicodeEncodeError]. *)
Module Utf8.

Definition between (lo hi : N) (b : ascii) : bool :=
  ((lo <=? N_of_ascii b) && (N_of_ascii b <=? hi))%N.

Definition continuation : ascii → bool := between 128 191.

(** Second byte of a three-byte form: no overlong form, no surrogate. *)
Definition second_of_three (a b : ascii) : bool :=
  if between 224 224 a then between 160 191 b
  else if between 237 237 a then between 128 159 b
  else continuation b.

(** Second byte of a four-byte form: no overlong form, at most U+10FFFF. *)
Definition second_of_four (a b : ascii) : bool :=
  if between 240 240 a then between 144 191 b
  else if between 244 244 a then between 128 143 b
  else continuation b.

(** Whether the bytes are well-formed UTF-8, as the strict decoder of
    Python accepts it. *)
Fixpoint valid (l : list ascii) : bool :=
  match l with
  | [] => true
  | a :: l1 =>
      if between 0 127 a then valid l1
      else
        match l1 with
        | [] => false
        | b :: l2 =>
            if between 194 223 a then continuation b && valid l2
            else
              match l2 with
              | [] => false
              | c :: l3 =>
                  if between 224 239 a
                  then second_of_three a b && continuation c && valid l3
                  else
                    match l3 with
                    | [] => false
                    | d :: l4 =>
                        between 240 244 a && second_of_four a b
                        && continuation c && continuation d && valid l4
                    end
              end
        end
  end.

End Utf8.

(** Whether SQLite can bind [str(file_path)] as a query parameter. *)
Definition path_encodable (file_path : string) : bool :=
  Utf8.valid (list_ascii_of_string file_path).

(** One iteration of the loop over [audio_files].  An exception inside
    the [try] block leaves the state as it is: [stat] can raise, and the
    SELECT raises when the path cannot be encoded; [get_file_hash] and
    [analyze_audio_file] catch their own exceptions.  The INSERT binds the
    path the SELECT has bound already and the text the probe returned.
    The handler prints the error and the loop continues; the database
    itself is taken to work. *)
Definition scan_file (env : environment) (st : scan_state) (file_path : string)
  : scan_state :=
  match stat env file_path with
  | None => st
  | Some s =>
      let file_size := st_size s in
      let last_modified := st_mtime s in
      let file_hash := get_file_hash (md5 env) (file_bytes env file_path) in
      if negb (path_encodable file_path) then st
      else
      let existing := rows st !! file_path in
      let '(new_files', updated_files', needs_analysis) :=
        match existing with
        | None => (S (new_files st), updated_files st, true)
        | Some e =>
            if hash_differs (sf_file_hash e) file_hash
               || mtime_differs (sf_last_modified e) last_modified
            then (new_files st, S (updated_files st), true)
            else (new_files st, updated_files st, false)
        end in
      let rows' :=
        if needs_analysis then
          match analyze_audio_file env file_path with
          | Some a =>
              <[ file_path :=
                   {| sf_file_hash := file_hash;
                      sf_file_size := file_size;
                      sf_last_modified := last_modified;
                      sf_bpm := an_bpm a;
                      sf_key := an_key a;
                      sf_duration := an_duration a;
                      sf_artist := an_artist a;
                      sf_title := an_title a;
                      sf_album := an_album a;
                      sf_genre := an_genre a |} ]> (rows st)
          | None => rows st
          end
        else rows st in
      {| rows := rows';
         files_found := S (files_found st);
         new_files := new_files';
         updated_files := updated_files' |}
  end.

(** The dictionary [scan_music_library] returns. *)
Record scan_result := {
  res_files_found : nat;
  res_new_files : nat;
  res_updated_files : nat;
  res_scan_duration : Q
}.

(** [audio_files] is the list the [rglob] enumeration produced; its order
    follows the iteration order of the extension set and of the file
    system.  The progress callback only drives the user interface and the
    SQLite calls are taken to succeed; neither is modelled. *)
Definition scan_music_library (env : environment) (audio_files : list string)
    (db : scanner_db) : scanner_db * scan_result :=
  let st :=
    foldl (scan_file env)
          {| rows := scanned_files db; files_found := 0;
             new_files := 0; updated_files := 0 |}
          audio_files in
  let scan_duration := (end_time env - start_time env)%Q in
  ({| scanned_files := rows st;
      scan_sessions :=
        scan_sessions db ++
        [ {| ss_files_found := files_found st;
             ss_new_files := new_files st;
             ss_updated_files := updated_files st;
             ss_scan_duration := scan_duration |} ] |},
   {| res_files_found := files_found st;
      res_new_files := new_files st;
      res_updated_files := updated_files st;
      res_scan_duration := scan_duration |}).

(** ** CompatibilityQuery: [get_compatible_tracks] and the tier tagging
       of [find_compatible_tracks]

    Tempi are SQLite REAL and Python float values; they are modelled by
    the rational numbers they denote, and the two bounds of the window
    and the distance are computed exactly, where the code rounds each to
    the nearest double.  Statements below that speak of the window refer
    to the rows the WHERE clause keeps, not to the values of its bounds. *)

(** The seven columns the query selects. *)
Record track := {
  artist : option string;
  title : option string;
  album : option string;
  track_bpm : option Q;
  track_key : option string;
  duration : option Q;
  location : option string
}.

(** A row of the [library] table of the Mixxx database; [None] is NULL. *)
Record library_row := {
  columns : track;
  mixxx_deleted : option Z
}.

(** [WHERE bpm BETWEEN ? AND ? AND key IN (...) AND mixxx_deleted = 0]:
    a row is kept when the condition is true, so not when a NULL makes it
    unknown. *)
Definition where_clause (bpm_min bpm_max : Q) (compatible_keys : gset string)
    (r : library_row) : bool :=
  match track_bpm (columns r), track_key (columns r), mixxx_deleted r with
  | Some b, Some k, Some d =>
      Qle_bool bpm_min b && Qle_bool b bpm_max
      && bool_decide (k ∈ compatible_keys)
      && (d =? 0)%Z
  | _, _, _ => false
  end.

(** [CASE WHEN key = ? THEN 0 ELSE 1 END], the parameter being
    [current_key] as the caller passed it. *)
Definition key_rank (current_key : string) (r : library_row) : nat :=
  if bool_decide (track_key (columns r) = Some current_key) then 0 else 1.

(** [ABS(bpm - ?)] *)
Definition tempo_distance (current_bpm : Q) (r : library_row) : option Q :=
  (fun b => Qabs (b - current_bpm)) <$> track_bpm (columns r).

(** Ascending order of SQLite on a nullable number: NULL first. *)
Definition nulls_first_leb (a b : option Q) : bool :=
  match a, b with
  | None, _ => true
  | Some _, None => false
  | Some x, Some y => Qle_bool x y
  end.

(** The two-term [ORDER BY]. *)
Definition order_by_leb (current_key : string) (current_bpm : Q)
    (r1 r2 : library_row) : bool :=
  (key_rank current_key r1 <? key_rank current_key r2)%nat
  || ((key_rank current_key r1 =? key_rank current_key r2)%nat
      && nulls_first_leb (tempo_distance current_bpm r1)
                         (tempo_distance current_bpm r2)).

Definition order_by (current_key : string) (current_bpm : Q)
  : relation library_row :=
  fun r1 r2 => order_by_leb current_key current_bpm r1 r2 = true.

#[global] Instance order_by_dec current_key current_bpm :
  RelDecision (order_by current_key current_bpm).
Proof. intros r1 r2. unfold order_by. apply _. Defined.

Definition LIMIT : nat := 50.

(** [mixxx_db] is the content of the [library] table, or [None] when the
    database file does not exist or the query raises.  SQL leaves the
    order of rows with equal sort keys open; the model sorts with a merge
    sort. *)
Definition get_compatible_tracks (mixxx_db : option (list library_row))
    (current_bpm : Q) (current_key : string) (bpm_tolerance : Q) : list track :=
  match mixxx_db with
  | None => []
  | Some library =>
      let compatible_keys := get_all_compatible_keys (Some current_key) in
      let compatible_keys :=
        if bool_decide (compatible_keys = ∅) then {[ current_key ]}
        else compatible_keys in
      let bpm_min := (current_bpm - bpm_tolerance)%Q in
      let bpm_max := (current_bpm + bpm_tolerance)%Q in
      let selected :=
        filter (fun r => where_clause bpm_min bpm_max compatible_keys r = true)
               library in
      columns <$>
        take LIMIT (merge_sort (order_by current_key current_bpm) selected)
  end.

Inductive compatibility := Perfect | Good | OK.

(** The tier [find_compatible_tracks] shows for a result row, [key]
    being the query key. *)
Definition compatibility_level (key : string) (track_key : option string)
  : compatibility :=
  let normalized_current := normalize_key (Some key) in
  let normalized_track := normalize_key track_key in
  if bool_decide (normalized_track = normalized_current) then Perfect
  else if match normalized_track with
          | Some t => bool_decide (t ∈ get_all_compatible_keys normalized_current)
          | None => false
          end
       then Good
       else OK.

(** ** Display helpers: [format_duration]

    Durations are SQLite REAL and Python float values, modelled by the
    rational numbers they denote.  Python computes [x // 60] and [x % 60]
    on floats from [fmod], which is exact, one subtraction and one
    division.  For [0 <= x < 2^53] none of these rounds: [x - fmod(x, 60)]
    is a whole number below [2^53], and its quotient by 60 is a whole
    number.  Outside that range the results are rounded ([-1e-20 % 60] is
    [60.0]); they are not modelled, and the functions below give [None]
    there. *)

(** [str(n)] of an integer: decimal digits, with a minus sign when
    negative. *)
Definition str_of_int (n : Z) : string := NilZero.string_of_int (Z.to_int n).

(** [f"{n:02d}"]: zero-padded to a width of two; a negative number already
    fills the width with its sign. *)
Definition format_02d (n : Z) : string :=
  let s := str_of_int n in
  if (String.length s <? 2)%nat then "0" ++ s else s.

(** [int(x)] of a float: truncation towards zero. *)
Definition int_of_float (x : Q) : Z :=
  if Qle_bool 0 x then Qfloor x else Qceiling x.

(** Where float division by 60 is exact: [0 <= x < 2^53]. *)
Definition EXACT_BELOW : Q := 9007199254740992.

Definition divides_exactly (x : Q) : bool :=
  Qle_bool 0 x && negb (Qle_bool EXACT_BELOW x).

(** [x // 60] and [x % 60] on floats, where they are exact. *)
Definition float_floordiv_60 (x : Q) : option Q :=
  if divides_exactly x then Some (inject_Z (Qfloor (x / 60))) else None.

Definition float_mod_60 (x : Q) : option Q :=
  if divides_exactly x then Some (x - 60 * inject_Z (Qfloor (x / 60)))%Q
  else None.

(** [seconds] is [None] for a NULL duration.  The result is [None] for a
    duration outside the range modelled. *)
Definition format_duration (seconds : option Q) : option string :=
  match seconds with
  | None => Some "0:00"
  | Some seconds =>
      if Qeq_bool seconds 0 then Some "0:00"
      else
        match float_floordiv_60 seconds, float_mod_60 seconds with
        | Some quotient, Some remainder =>
            let minutes := int_of_float quotient in
            let seconds := int_of_float remainder in
            Some (str_of_int minutes ++ ":" ++ format_02d seconds)
        | _, _ => None
        end
  end.

(** ** Derived notions used in the statements *)

(** The keys of the compatibility table, in source order. *)
Definition table_keys : list string := harmonic_compatibility_items.*1.

(** Each key of the table with its compatible set. *)
Definition compatible_table : list (string * gset string) :=
  (fun K => (K, get_all_compatible_keys (Some K))) <$> table_keys.

(** The value of the local [file_hash] for a path. *)
Definition current_hash (env : environment) (file_path : string) : option string :=
  get_file_hash (md5 env) (file_bytes env file_path).

(** Whether the iteration for a path whose [stat] gave [s] flags the
    file, that is, sets the local [needs_analysis] to [True], when the
    table holds [rows]: the SELECT has to succeed, and to find no row or
    a row with another hash or modification time. *)
Definition needs_analysis (env : environment) (rows : gmap string scanned_file)
    (file_path : string) (s : stat_result) : bool :=
  path_encodable file_path
  && match rows !! file_path with
     | None => true
     | Some e =>
         hash_differs (sf_file_hash e) (current_hash env file_path)
         || mtime_differs (sf_last_modified e) (st_mtime s)
     end.

(** A path is up to date when the scan would not analyse it. *)
Definition up_to_date (env : environment) (rows : gmap string scanned_file)
    (file_path : string) : Prop :=
  match stat env file_path with
  | None => True
  | Some s => needs_analysis env rows file_path s = false
  end.

(** The rows the WHERE clause of [get_compatible_tracks] keeps. *)
Definition matching_rows (library : list library_row) (current_bpm : Q)
    (current_key : string) (bpm_tolerance : Q) : list library_row :=
  let compatible_keys := get_all_compatible_keys (Some current_key) in
  let compatible_keys :=
    if bool_decide (compatible_keys = ∅) then {[ current_key ]}
    else compatible_keys in
  filter (fun r => where_clause (current_bpm - bpm_tolerance)%Q
                                (current_bpm + bpm_tolerance)%Q
                                compatible_keys r = true)
         library.

(** The set [get_all_compatible_keys] builds from the list of compatible
    traditional keys: the two loops that add notations. *)
Definition all_notations (compatible_traditional : list string) : gset string :=
  let all_compatible : gset string := list_to_set compatible_traditional in
  let all_compatible := foldl add_camelot all_compatible compatible_traditional in
  foldl add_alternative all_compatible (elements all_compatible).

(** The keys of the IN-list of [get_compatible_tracks]. *)
Definition query_keys (current_key : string) : gset string :=
  let compatible_keys := get_all_compatible_keys (Some current_key) in
  if bool_decide (compatible_keys = ∅) then {[ current_key ]}
  else compatible_keys.

(** Whether normalising any member of a compatible set gives a member of
    that set. *)
Definition closed_under_normalize (p : string * gset string) : bool :=
  forallb (fun k : string =>
             from_option (fun t => bool_decide (t ∈ p.2)) false
                         (normalize_key (Some k)))
          (elements p.2).

(** The shape of a row the scan writes for a path. *)
Definition written_row (env : environment) (file_path : string)
    (e : scanned_file) : Prop :=
  ∃ s a,
    stat env file_path = Some s ∧ analyze_audio_file env file_path = Some a
    ∧ sf_file_hash e = current_hash env file_path
    ∧ sf_file_size e = st_size s
    ∧ sf_last_modified e = st_mtime s
    ∧ sf_bpm e = None ∧ sf_key e = None
    ∧ sf_duration e = an_duration a
    ∧ sf_artist e = an_artist a ∧ sf_title e = an_title a
    ∧ sf_album e = an_album a ∧ sf_genre e = an_genre a.

(** Whether a key of [camelot_to_traditional], looked up in it, gives what
    [normalize_key] gives, a key that has a row. *)
Definition recognised_spelling_ok (c : string) : bool :=
  bool_decide (normalize_key (Some c) = camelot_to_traditional !! c)
  && from_option (fun t => bool_decide (is_Some (harmonic_compatibility !! t)))
                 false (camelot_to_traditional !! c).

(** ** Concrete inputs *)

Module Examples.

(** A stand-in for the digest function. *)
Definition digest (bytes : list Byte.byte) : string :=
  if bool_decide (bytes = []) then "d41d8cd98f00b204e9800998ecf8427e"
  else "0f343b0931126a20f133d67c2b018a3b".

(** A file that fills the read window exactly, and a short one. *)
Definition window_file : list Byte.byte :=
  replicate (Z.to_nat READ_WINDOW) Byte.x00.

Definition short_file : list Byte.byte := replicate 1000 Byte.x00.

Definition document : probe_document :=
  {| doc_duration := 180;
     doc_artist := Some "Artist";
     doc_title := Some "Title";
     doc_album := None;
     doc_genre := None |}.

(** A directory holding the short file [a.mp3]; [b.mp3] was listed but
    cannot be inspected any more. *)
Definition directory (probe : probe_result) : environment :=
  {| md5 := digest;
     stat := fun p =>
       if String.eqb p "a.mp3"
       then Some {| st_size := 1000; st_mtime := 1700000000 |}
       else None;
     file_bytes := fun p =>
       if String.eqb p "a.mp3" then Some short_file else None;
     ffprobe := fun _ => probe;
     start_time := 0;
     end_time := 1 |}.

Definition probe_succeeds : environment :=
  directory (ProbeExited 0 (Some document)).

Definition probe_times_out : environment := directory ProbeRaised.

Definition stale_row : scanned_file :=
  {| sf_file_hash := Some "0f343b0931126a20f133d67c2b018a3b";
     sf_file_size := 4096;
     sf_last_modified := 1600000000;
     sf_bpm := None;
     sf_key := None;
     sf_duration := 200;
     sf_artist := None;
     sf_title := None;
     sf_album := None;
     sf_genre := None |}.

Definition empty_db : scanner_db :=
  {| scanned_files := ∅; scan_sessions := [] |}.

(** A catalog that remembers a file which is no longer on disk. *)
Definition stale_db : scanner_db :=
  {| scanned_files := {[ "gone.mp3" := stale_row ]}; scan_sessions := [] |}.

(** A row of the Mixxx library that is not deleted. *)
Definition row (key : string) (bpm : Q) : library_row :=
  {| columns :=
       {| artist := Some "Artist";
          title := Some "Title";
          album := None;
          track_bpm := Some bpm;
          track_key := Some key;
          duration := Some 240%Q;
          location := Some "/music/track.mp3" |};
     mixxx_deleted := Some 0%Z |}.

End Examples.

Module MoreExamples.

(** The directory of [Examples.probe_succeeds] after [a.mp3] was edited:
    other bytes, still short, same size and modification time. *)
Definition edited_directory : environment :=
  {| md5 := Examples.digest;
     stat := stat Examples.probe_succeeds;
     file_bytes := fun p =>
       if String.eqb p "a.mp3" then Some (replicate 1000 Byte.x01) else None;
     ffprobe := ffprobe Examples.probe_succeeds;
     start_time := 2;
     end_time := 3 |}.

(** A file of three read windows. *)
Definition large_file : list Byte.byte :=
  replicate (Z.to_nat (3 * READ_WINDOW)) Byte.x00.



Definition mixed_library : list library_row :=
  [ Examples.row "Am" (241 # 2); Examples.row "C" 122;
    Examples.row "G" 120; Examples.row "F♯m" 120 ].

End MoreExamples.

(** * Properties *)

(** Closed statements about the fixed tables are settled by evaluating
    their decision procedure. *)
Ltac by_evaluation :=
  match goal with
  | |- ?P => apply (bool_decide_unpack P); vm_compute; exact I
  end.

(** ** KeyModel *)

Section KeyModel.

(** Every key with a Camelot code is left as it is by [normalize_key]. *)
Lemma normalize_key_traditional :
  Forall (fun kv : string * string => normalize_key (Some kv.1) = Some kv.1)
         camelot_mapping_items.
Proof. by_evaluation. Qed.

(** So is every key of the compatibility table. *)
Lemma normalize_key_table_key :
  Forall (fun kv : string * list string => normalize_key (Some kv.1) = Some kv.1)
         harmonic_compatibility_items.
Proof. by_evaluation. Qed.

(** A binding of a dict built from items is one of the items. *)
Lemma dict_update_lookup {V} (items : list (string * V)) d k v :
  Py.dict_update d items !! k = Some v → (k, v) ∈ items ∨ d !! k = Some v.
Proof.
  revert d. induction items as [| [k' v'] items IH]; intros d Hk.
  - by right.
  - apply IH in Hk as [Hin | Hd].
    + left. by right.
    + cbn [fst snd] in Hd. rewrite lookup_insert in Hd.
      case_decide; [| by right]. simplify_eq. left. by left.
Qed.

Lemma dict_of_items_lookup {V} (items : list (string * V)) k v :
  Py.dict_of_items items !! k = Some v → (k, v) ∈ items.
Proof.
  intros Hk. apply dict_update_lookup in Hk as [Hin | He]; [done |].
  by rewrite lookup_empty in He.
Qed.

(** Away from the two sharp keys that share a Camelot code with their
    flat spelling, the Camelot code of a key normalises to that key. *)
Lemma normalize_key_camelot K c :
  camelot_mapping !! K = Some c → K ≠ "F♯" → K ≠ "D♯m" →
  normalize_key (Some c) = Some K.
Proof.
  intros Hin HF HD. apply dict_of_items_lookup in Hin.
  assert (Hall : Forall (fun kv : string * string =>
                   kv.1 = "F♯" ∨ kv.1 = "D♯m"
                   ∨ normalize_key (Some kv.2) = Some kv.1)
                 camelot_mapping_items) by by_evaluation.
  rewrite Forall_forall in Hall.
  destruct (Hall _ Hin) as [? | [? | ?]]; cbn [fst snd] in *; congruence.
Qed.

(** C1 (defect in the code).  Every traditional key with a Camelot code
    is a fixed point of [normalize_key], and the Camelot code of every
    such key but two normalises back to the key.  The exceptions are the
    sharp spellings the code itself treats as canonical (both
    ["F♯/G♭"] and ["2B (F♯/G♭)"] normalise to ["F♯"], both
    ["D♯m/E♭m"] and ["2A (D♯m/E♭m)"] to ["D♯m"]): the reversed
    dictionary keeps the later, flat entry, so the Camelot code of
    ["F♯"] normalises to ["G♭"] and that of ["D♯m"] to ["E♭m"]. *)
Theorem normalize_key_camelot_of_sharp_keys :
  Forall (fun kv : string * string => normalize_key (Some kv.1) = Some kv.1)
         camelot_mapping_items
  ∧ Forall (fun kv : string * string =>
              kv.1 = "F♯" ∨ kv.1 = "D♯m"
              ∨ normalize_key (camelot_mapping !! kv.1) = Some kv.1)
           camelot_mapping_items
  ∧ camelot_mapping !! "F♯" = Some "2B"
  ∧ normalize_key (camelot_mapping !! "F♯") = Some "G♭"
  ∧ normalize_key (Some "F♯/G♭") = Some "F♯"
  ∧ normalize_key (Some "2B (F♯/G♭)") = Some "F♯"
  ∧ camelot_mapping !! "D♯m" = Some "2A"
  ∧ normalize_key (camelot_mapping !! "D♯m") = Some "E♭m"
  ∧ normalize_key (Some "D♯m/E♭m") = Some "D♯m"
  ∧ normalize_key (Some "2A (D♯m/E♭m)") = Some "D♯m".
Proof. by_evaluation. Qed.

(** C10.  The bare Camelot codes ["2B"] and ["2A"] normalise to the flat
    spellings ["G♭"] and ["E♭m"], the combined strings
    ["2B (F♯/G♭)"] and ["2A (D♯m/E♭m)"] to the sharp spellings ["F♯"]
    and ["D♯m"]: two spellings of one Camelot code normalise to
    different keys. *)
Theorem normalize_key_enharmonic_camelot :
  normalize_key (Some "2B") = Some "G♭"
  ∧ normalize_key (Some "2A") = Some "E♭m"
  ∧ normalize_key (Some "2B (F♯/G♭)") = Some "F♯"
  ∧ normalize_key (Some "2A (D♯m/E♭m)") = Some "D♯m"
  ∧ normalize_key (Some "2B") ≠ normalize_key (Some "2B (F♯/G♭)")
  ∧ normalize_key (Some "2A") ≠ normalize_key (Some "2A (D♯m/E♭m)").
Proof. by_evaluation. Qed.

(** Among the keys of the table, compatibility as computed by
    [get_all_compatible_keys] is symmetric whenever the second key is
    not one of the flat spellings ["G♭"] and ["E♭m"]. *)
Lemma compatible_keys_symmetric_away_from_flats :
  Forall (fun p : (string * gset string) * (string * gset string) =>
            p.2.1 = "G♭" ∨ p.2.1 = "E♭m" ∨ (p.2.1 ∈ p.1.2 → p.1.1 ∈ p.2.2))
         (list_prod compatible_table compatible_table).
Proof. by_evaluation. Qed.

(** C2 (defect in the code).  Compatibility is not symmetric: the
    alternative-spelling step adds ["G♭"] to every set that holds
    ["F♯"] but never ["F♯"] to a set that holds ["G♭"], so ["G♭"] is
    compatible with ["F♯"] and ["F♯"] is not compatible with ["G♭"];
    and ["C♯"] lists ["G♯"], a key without a row of its own, whose
    compatible set is the fallback [{"G♯"}]. *)
Theorem compatible_keys_not_symmetric :
  "G♭" ∈ get_all_compatible_keys (Some "F♯")
  ∧ ("F♯" ∉ get_all_compatible_keys (Some "G♭"))
  ∧ "G♯" ∈ get_all_compatible_keys (Some "C♯")
  ∧ ("C♯" ∉ get_all_compatible_keys (Some "G♯"))
  ∧ get_all_compatible_keys (Some "G♯") = {[ "G♯" ]}.
Proof. by_evaluation. Qed.

End KeyModel.

(** ** ContentFingerprint *)

Section Fingerprint.

Variable md5_hexdigest : list Byte.byte → string.

Lemma READ_WINDOW_value : READ_WINDOW = 65536%Z.
Proof. reflexivity. Qed.

Lemma hashed_bytes_short bytes :
  (Z.of_nat (length bytes) < READ_WINDOW)%Z → hashed_bytes (Some bytes) = None.
Proof.
  intros Hlen. unfold hashed_bytes, BinaryFile.read, BinaryFile.seek_end.
  cbn [BinaryFile.opened BinaryFile.content BinaryFile.pos].
  destruct (Z.ltb_spec (Z.of_nat (length bytes) + - READ_WINDOW) 0);
    [done | exfalso; lia].
Qed.

Lemma hashed_bytes_long bytes :
  (READ_WINDOW ≤ Z.of_nat (length bytes))%Z →
  hashed_bytes (Some bytes)
  = Some (take (Z.to_nat READ_WINDOW) bytes
          ++ drop (length bytes - Z.to_nat READ_WINDOW) bytes)%list.
Proof.
  intros Hlen. pose proof READ_WINDOW_value as HW.
  unfold hashed_bytes, BinaryFile.read, BinaryFile.seek_end.
  cbn [BinaryFile.opened BinaryFile.content BinaryFile.pos].
  destruct (Z.ltb_spec (Z.of_nat (length bytes) + - READ_WINDOW) 0);
    [exfalso; lia |].
  cbn [BinaryFile.content BinaryFile.pos].
  replace (Z.to_nat (Z.of_nat (length bytes) + - READ_WINDOW))
    with (length bytes - Z.to_nat READ_WINDOW)%nat by lia.
  rewrite (take_ge (drop (length bytes - _) _)); [| rewrite length_drop; lia].
  change (Z.to_nat 0) with 0%nat. by rewrite drop_0.
Qed.

(** C8, amended.  [get_file_hash] returns [None] exactly when the file
    cannot be opened or holds fewer bytes than the 64 KiB read window,
    in which case the seek to the tail fails.  For a readable file of
    at least 64 KiB and at most 128 KiB it succeeds, and the two reads
    overlap and cover every byte of the file. *)
Theorem get_file_hash_null_iff_shorter_than_window file :
  (get_file_hash md5_hexdigest file = None ↔
     file = None
     ∨ ∃ bytes, file = Some bytes ∧ (Z.of_nat (length bytes) < READ_WINDOW)%Z)
  ∧ (∀ bytes,
       file = Some bytes →
       (READ_WINDOW ≤ Z.of_nat (length bytes) ≤ 2 * READ_WINDOW)%Z →
       let head := take (Z.to_nat READ_WINDOW) bytes in
       let tail := drop (length bytes - Z.to_nat READ_WINDOW) bytes in
       get_file_hash md5_hexdigest file = Some (md5_hexdigest (head ++ tail)%list)
       ∧ ∀ (i : nat) b,
           bytes !! i = Some b →
           head !! i = Some b
           ∨ ∃ j : nat, tail !! j = Some b
                        ∧ i = (length bytes - Z.to_nat READ_WINDOW + j)%nat).
Proof.
  split.
  - unfold get_file_hash. rewrite fmap_None. split.
    + destruct file as [bytes |]; [| by left]. intros Hnone. right.
      exists bytes. split; [done |].
      destruct (Z.lt_ge_cases (Z.of_nat (length bytes)) READ_WINDOW) as [? | Hge];
        [done |].
      by rewrite (hashed_bytes_long _ Hge) in Hnone.
    + intros [-> | (bytes & -> & Hlen)]; [done | by apply hashed_bytes_short].
  - intros bytes -> [Hlo Hhi] head tail. pose proof READ_WINDOW_value as HW.
    unfold get_file_hash. rewrite (hashed_bytes_long _ Hlo). split; [done |].
    intros i b Hi. pose proof (lookup_lt_Some _ _ _ Hi) as Hlt.
    destruct (decide (i < Z.to_nat READ_WINDOW)%nat) as [Hin | Hout].
    + left. subst head. by rewrite lookup_take_lt.
    + right. exists (i - (length bytes - Z.to_nat READ_WINDOW))%nat. split.
      * subst tail. rewrite lookup_drop. rewrite <- Hi. f_equal. lia.
      * lia.
Qed.

End Fingerprint.

(** ** LibraryIndexer *)

Section Scan.

Implicit Types (env : environment) (st : scan_state) (p q : string).

(** Case analysis along the branches of one loop iteration. *)
Ltac scan_file_cases env st q :=
  unfold scan_file;
  destruct (stat env q) as [?s |] eqn:?Hstat; [| try done];
  destruct (path_encodable q) eqn:?Henc; cbn [negb]; [| try done];
  destruct (rows st !! q) as [?e |] eqn:?Hrow;
  [ destruct (hash_differs _ _ || mtime_differs _ _) eqn:?Hdiff |];
  cbn beta iota zeta;
  try (destruct (analyze_audio_file env q) as [?a |] eqn:?Han);
  cbn [rows files_found new_files updated_files].


Lemma scan_file_files_found env st q :
  files_found (scan_file env st q)
  = (files_found st
     + match stat env q with
       | Some _ => if path_encodable q then 1 else 0
       | None => 0
       end)%nat.
Proof. scan_file_cases env st q; lia. Qed.

Lemma scan_file_other env st q p :
  p ≠ q → rows (scan_file env st q) !! p = rows st !! p.
Proof.
  intros Hne. scan_file_cases env st q; try done; by rewrite lookup_insert_ne.
Qed.

Lemma scan_file_keeps_rows env st q p :
  is_Some (rows st !! p) → is_Some (rows (scan_file env st q) !! p).
Proof.
  intros Hp. destruct (decide (p = q)) as [-> | Hne];
    [| by rewrite scan_file_other].
  scan_file_cases env st q; try done; rewrite lookup_insert_eq; eauto.
Qed.

Lemma scan_file_failed_analysis env st q p :
  analyze_audio_file env p = None →
  rows (scan_file env st q) !! p = rows st !! p.
Proof.
  intros Hfail. destruct (decide (p = q)) as [-> | Hne];
    [| by apply scan_file_other].
  scan_file_cases env st q; try done; congruence.
Qed.

(** Lifting a property of one iteration to the whole loop. *)
Lemma scan_loop_invariant env (P : scan_state → Prop) audio_files st :
  (∀ st q, P st → P (scan_file env st q)) →
  P st → P (foldl (scan_file env) st audio_files).
Proof.
  intros Hstep. revert st.
  induction audio_files as [| q audio_files IH]; intros st Hst; [done |].
  cbn [foldl]. apply IH. by apply Hstep.
Qed.

Lemma scan_loop_files_found env audio_files st :
  files_found (foldl (scan_file env) st audio_files)
  = (files_found st
     + length (filter (fun p => is_Some (stat env p)
                                ∧ path_encodable p = true) audio_files))%nat.
Proof.
  revert st. induction audio_files as [| q audio_files IH]; intros st.
  - cbn. lia.
  - cbn [foldl]. rewrite IH, scan_file_files_found, filter_cons.
    destruct (stat env q) eqn:Hq.
    + destruct (path_encodable q) eqn:Henc.
      * rewrite decide_True by eauto. cbn [length]. lia.
      * rewrite decide_False by (by intros [_ ?]). lia.
    + rewrite decide_False by (by intros [[? ?] _]). lia.
Qed.

Lemma hash_differs_same h : hash_differs h h = false.
Proof. unfold hash_differs. by rewrite bool_decide_eq_true_2. Qed.

Lemma mtime_differs_same m : mtime_differs m m = false.
Proof.
  unfold mtime_differs. apply negb_false_iff, Qeq_bool_iff. reflexivity.
Qed.

(** After its iteration a path is up to date, unless its analysis was
    needed and failed. *)
Lemma scan_file_brings_up_to_date env st q :
  (∀ s, stat env q = Some s → needs_analysis env (rows st) q s = true →
        is_Some (analyze_audio_file env q)) →
  up_to_date env (rows (scan_file env st q)) q.
Proof.
  intros Hok. unfold up_to_date.
  destruct (stat env q) as [s |] eqn:Hq; [| done].
  specialize (Hok s eq_refl). unfold needs_analysis in *.
  destruct (path_encodable q) eqn:Henc; [| reflexivity].
  cbn [andb] in *. unfold scan_file. rewrite Hq, Henc. cbn [negb].
  destruct (rows st !! q) as [e |] eqn:Hrow.
  - fold (current_hash env q).
    destruct (hash_differs _ _ || mtime_differs _ _) eqn:Hdiff;
      cbn beta iota zeta.
    + destruct Hok as [a ->]; [done |]. cbn [rows].
      rewrite lookup_insert_eq. cbn [sf_file_hash sf_last_modified].
      by rewrite hash_differs_same, mtime_differs_same.
    + cbn [rows]. by rewrite Hrow.
  - cbn beta iota zeta. destruct Hok as [a ->]; [done |]. cbn [rows].
    rewrite lookup_insert_eq. cbn [sf_file_hash sf_last_modified].
    fold (current_hash env q).
    by rewrite hash_differs_same, mtime_differs_same.
Qed.

(** An up-to-date path costs an iteration nothing but [files_found]. *)
Lemma scan_file_up_to_date env st q :
  up_to_date env (rows st) q →
  rows (scan_file env st q) = rows st
  ∧ new_files (scan_file env st q) = new_files st
  ∧ updated_files (scan_file env st q) = updated_files st.
Proof.
  unfold up_to_date, needs_analysis, scan_file.
  destruct (stat env q) as [s |] eqn:Hq; [| done].
  destruct (path_encodable q) eqn:Henc; [| done]. cbn [andb negb].
  destruct (rows st !! q) as [e |] eqn:Hrow; [| done].
  fold (current_hash env q). by intros ->.
Qed.

Lemma scan_file_preserves_up_to_date env st q p :
  up_to_date env (rows st) p → up_to_date env (rows (scan_file env st q)) p.
Proof.
  intros Hp. destruct (decide (p = q)) as [-> | Hne].
  - by destruct (scan_file_up_to_date env st q Hp) as (-> & _).
  - unfold up_to_date, needs_analysis in *. by rewrite scan_file_other.
Qed.

Lemma scan_loop_brings_up_to_date env audio_files st :
  (∀ p s, p ∈ audio_files → stat env p = Some s →
          needs_analysis env (rows st) p s = true →
          is_Some (analyze_audio_file env p)) →
  ∀ p, p ∈ audio_files →
       up_to_date env (rows (foldl (scan_file env) st audio_files)) p.
Proof.
  revert st. induction audio_files as [| q audio_files IH]; intros st Hok p Hp.
  { by apply elem_of_nil in Hp. }
  cbn [foldl].
  assert (Hq : up_to_date env (rows (scan_file env st q)) q).
  { apply scan_file_brings_up_to_date. intros s. apply Hok. by left. }
  destruct (decide (p = q)) as [-> | Hne].
  - apply (scan_loop_invariant env (fun st => up_to_date env (rows st) q));
      [| done].
    intros st' q'. apply scan_file_preserves_up_to_date.
  - apply elem_of_cons in Hp as [? | Hp]; [done |].
    apply IH; [| done]. intros p' s Hp' Hs Hneeds.
    destruct (decide (p' = q)) as [-> | Hne'].
    + unfold up_to_date in Hq. rewrite Hs in Hq. congruence.
    + apply (Hok p' s); [by right | done |].
      unfold needs_analysis in *. by rewrite scan_file_other in Hneeds.
Qed.

Lemma scan_loop_up_to_date env audio_files st :
  (∀ p, p ∈ audio_files → up_to_date env (rows st) p) →
  rows (foldl (scan_file env) st audio_files) = rows st
  ∧ new_files (foldl (scan_file env) st audio_files) = new_files st
  ∧ updated_files (foldl (scan_file env) st audio_files) = updated_files st.
Proof.
  revert st. induction audio_files as [| q audio_files IH]; intros st Hall;
    [done |].
  cbn [foldl].
  destruct (scan_file_up_to_date env st q) as (Hr & Hn & Hu).
  { apply Hall. by left. }
  destruct (IH (scan_file env st q)) as (Hr' & Hn' & Hu').
  { intros p Hp. rewrite Hr. apply Hall. by right. }
  by rewrite Hr', Hn', Hu', Hr, Hn, Hu.
Qed.

Lemma stat_successes_ext env env' (audio_files : list string) :
  (∀ p, p ∈ audio_files → stat env p = stat env' p) →
  filter (fun p => is_Some (stat env p) ∧ path_encodable p = true) audio_files
  = filter (fun p => is_Some (stat env' p) ∧ path_encodable p = true)
           audio_files.
Proof.
  induction audio_files as [| q audio_files IH]; intros Hsame; [done |].
  rewrite !filter_cons, (Hsame q) by (by left).
  rewrite IH; [done |]. intros p Hp. apply Hsame. by right.
Qed.

(** C5.  Scanning twice a directory whose files keep their bytes and
    modification times, every analysis the first scan needed having
    succeeded: the second scan reports no new and no updated file, and
    finds as many files as the first.  The second enumeration may list the
    files in another order. *)
Theorem rescan_of_unchanged_directory env1 env2 audio_files audio_files' db :
  audio_files' ≡ₚ audio_files →
  md5 env2 = md5 env1 →
  (∀ p, p ∈ audio_files →
        stat env2 p = stat env1 p ∧ file_bytes env2 p = file_bytes env1 p) →
  (∀ p s, p ∈ audio_files → stat env1 p = Some s →
          needs_analysis env1 (scanned_files db) p s = true →
          is_Some (analyze_audio_file env1 p)) →
  let first := scan_music_library env1 audio_files db in
  let second := scan_music_library env2 audio_files' first.1 in
  res_new_files second.2 = 0%nat
  ∧ res_updated_files second.2 = 0%nat
  ∧ res_files_found second.2 = res_files_found first.2.
Proof.
  intros Hperm Hmd5 Hsame Hok first second. subst first second.
  unfold scan_music_library.
  cbn [fst snd scanned_files res_new_files res_updated_files res_files_found].
  set (st0 := {| rows := scanned_files db; files_found := 0;
                 new_files := 0; updated_files := 0 |}).
  set (st1 := foldl (scan_file env1) st0 audio_files).
  assert (Hup : ∀ p, p ∈ audio_files' → up_to_date env2 (rows st1) p).
  { intros p Hp. rewrite Hperm in Hp.
    pose proof (scan_loop_brings_up_to_date env1 audio_files st0 Hok p Hp) as H1.
    destruct (Hsame p Hp) as [Hs Hb].
    unfold up_to_date, needs_analysis, current_hash in *.
    by rewrite Hs, Hb, Hmd5. }
  destruct (scan_loop_up_to_date env2 audio_files'
              {| rows := rows st1; files_found := 0;
                 new_files := 0; updated_files := 0 |} Hup)
    as (_ & -> & ->).
  split; [done |]. split; [done |].
  unfold st1. rewrite !scan_loop_files_found. cbn [files_found].
  rewrite Hperm. rewrite (stat_successes_ext env2 env1); [done |].
  intros p Hp. by destruct (Hsame p Hp).
Qed.

(** C6, amended.  When the analysis of a path fails, the scan leaves the
    row of that path as it was; the file has been counted all the same:
    as new when it had no row, as updated when its row differed. *)
Theorem failed_analysis_keeps_row_but_is_counted env audio_files db p :
  analyze_audio_file env p = None →
  scanned_files (scan_music_library env audio_files db).1 !! p
  = scanned_files db !! p
  ∧ ∀ st s,
      stat env p = Some s → needs_analysis env (rows st) p s = true →
      rows (scan_file env st p) = rows st
      ∧ files_found (scan_file env st p) = S (files_found st)
      ∧ match rows st !! p with
        | None =>
            new_files (scan_file env st p) = S (new_files st)
            ∧ updated_files (scan_file env st p) = updated_files st
        | Some _ =>
            new_files (scan_file env st p) = new_files st
            ∧ updated_files (scan_file env st p) = S (updated_files st)
        end.
Proof.
  intros Hfail. split.
  - unfold scan_music_library. cbn [fst scanned_files].
    apply (scan_loop_invariant env
             (fun st => rows st !! p = scanned_files db !! p)); [| done].
    intros st q <-. by apply scan_file_failed_analysis.
  - intros st s Hs Hneeds. unfold needs_analysis in Hneeds.
    apply andb_true_iff in Hneeds as [Henc Hneeds].
    unfold scan_file. rewrite Hs, Henc, Hfail. cbn [negb].
    fold (current_hash env p).
    destruct (rows st !! p) as [e |]; [| done]. by rewrite Hneeds.
Qed.


(** C9.  A scan deletes no row of [scanned_files]: a path with a row
    before the scan has a row after it, whether or not a file is still
    there. *)
Theorem scan_never_deletes_rows env audio_files db p :
  is_Some (scanned_files db !! p) →
  is_Some (scanned_files (scan_music_library env audio_files db).1 !! p).
Proof.
  intros Hp. unfold scan_music_library. cbn [fst scanned_files].
  apply (scan_loop_invariant env (fun st => is_Some (rows st !! p)));
    [| done].
  intros st q. apply scan_file_keeps_rows.
Qed.

End Scan.

(** ** CompatibilityQuery *)

Section Query.

Implicit Types (r : library_row) (t : track).

Lemma nulls_first_leb_trans a b c :
  nulls_first_leb a b = true → nulls_first_leb b c = true →
  nulls_first_leb a c = true.
Proof.
  destruct a as [x |], b as [y |], c as [z |]; cbn; try done.
  rewrite !Qle_bool_iff. apply Qle_trans.
Qed.

Lemma nulls_first_leb_total a b :
  nulls_first_leb a b = true ∨ nulls_first_leb b a = true.
Proof.
  destruct a as [x |], b as [y |]; cbn; auto.
  rewrite !Qle_bool_iff.
  destruct (Qlt_le_dec x y) as [Hlt | Hle]; [left | by right].
  by apply Qlt_le_weak.
Qed.

Lemma order_by_spec current_key current_bpm r1 r2 :
  order_by current_key current_bpm r1 r2 ↔
    (key_rank current_key r1 < key_rank current_key r2)%nat
    ∨ (key_rank current_key r1 = key_rank current_key r2
       ∧ nulls_first_leb (tempo_distance current_bpm r1)
                         (tempo_distance current_bpm r2) = true).
Proof.
  unfold order_by, order_by_leb.
  by rewrite orb_true_iff, andb_true_iff, Nat.ltb_lt, Nat.eqb_eq.
Qed.

#[local] Instance order_by_transitive current_key current_bpm :
  Transitive (order_by current_key current_bpm).
Proof.
  intros r1 r2 r3. rewrite !order_by_spec.
  intros [H12 | [H12 D12]] [H23 | [H23 D23]]; try (left; lia).
  right. split; [lia |]. by eapply nulls_first_leb_trans.
Qed.

#[local] Instance order_by_total current_key current_bpm :
  Total (order_by current_key current_bpm).
Proof.
  intros r1 r2. rewrite !order_by_spec.
  destruct (lt_eq_lt_dec (key_rank current_key r1) (key_rank current_key r2))
    as [[Hlt | Heq] | Hgt]; [by left; left | | by right; left].
  destruct (nulls_first_leb_total (tempo_distance current_bpm r1)
                                  (tempo_distance current_bpm r2));
    [left | right]; right; by split.
Qed.


Lemma get_compatible_tracks_unfold library current_bpm current_key bpm_tolerance :
  get_compatible_tracks (Some library) current_bpm current_key bpm_tolerance
  = columns <$>
      take LIMIT (merge_sort (order_by current_key current_bpm)
                    (matching_rows library current_bpm current_key bpm_tolerance)).
Proof. reflexivity. Qed.




Lemma LIMIT_value : LIMIT = 50%nat.
Proof. reflexivity. Qed.


Lemma F_sharp_query_keys :
  "D♯m" ∈ (if bool_decide (get_all_compatible_keys (Some "F♯") = ∅)
           then {[ "F♯" ]} else get_all_compatible_keys (Some "F♯"))
  ∧ compatibility_level "F♯" (Some "D♯m") = Good.
Proof. split; [by_evaluation | by vm_compute]. Qed.

(** C3, amended.  For the query key ["F♯"], a row of the catalog stored
    under ["D♯m"], the relative minor of F♯ major, that is not deleted
    and whose tempo lies in the window is among the results whenever
    at most 50 rows match, and its tier is [Good].  (A row stored
    under ["F♯m"] is not matched by the query key ["F♯"].) *)
Theorem relative_minor_of_F_sharp_is_found
    library r b current_bpm bpm_tolerance :
  r ∈ library →
  track_key (columns r) = Some "D♯m" →
  track_bpm (columns r) = Some b →
  (current_bpm - bpm_tolerance <= b)%Q →
  (b <= current_bpm + bpm_tolerance)%Q →
  mixxx_deleted r = Some 0%Z →
  (length (matching_rows library current_bpm "F♯" bpm_tolerance) ≤ LIMIT)%nat →
  columns r ∈ get_compatible_tracks (Some library) current_bpm "F♯" bpm_tolerance
  ∧ compatibility_level "F♯" (track_key (columns r)) = Good.
Proof.
  intros Hr Hkey Hbpm Hlo Hhi Hdel Hfew.
  destruct F_sharp_query_keys as [Hkeys Htier].
  split; [| by rewrite Hkey].
  rewrite get_compatible_tracks_unfold.
  apply list_elem_of_fmap_2.
  rewrite take_ge; [| by rewrite merge_sort_Permutation].
  rewrite merge_sort_Permutation.
  unfold matching_rows. apply list_elem_of_filter. split; [| done].
  unfold where_clause. rewrite Hbpm, Hkey, Hdel.
  apply Qle_bool_iff in Hlo, Hhi. rewrite Hlo, Hhi.
  by rewrite (bool_decide_eq_true_2 _ Hkeys).
Qed.

End Query.

(** * The properties at concrete inputs *)

Section Concrete.

Import Examples.

(** ** Scans *)

Lemma rescan_of_unchanged_directory_witness :
  let env := probe_succeeds in
  let audio_files := ["a.mp3"; "b.mp3"] in
  let first := scan_music_library env audio_files empty_db in
  let second := scan_music_library env ["b.mp3"; "a.mp3"] first.1 in
  res_files_found first.2 = 1%nat
  ∧ res_new_files first.2 = 1%nat
  ∧ res_new_files second.2 = 0%nat
  ∧ res_updated_files second.2 = 0%nat
  ∧ res_files_found second.2 = res_files_found first.2.
Proof.
  intros env audio_files first second.
  split; [by vm_compute |]. split; [by vm_compute |].
  apply (rescan_of_unchanged_directory env env audio_files ["b.mp3"; "a.mp3"]
           empty_db).
  - apply perm_swap.
  - reflexivity.
  - intros p _. split; reflexivity.
  - intros p s _ _ _. eexists. reflexivity.
Defined.

(** The probe times out on a file that has no row yet: the file is
    counted as new although nothing was stored for it. *)
Lemma failed_analysis_is_counted_as_new :
  let env := probe_times_out in
  let outcome := scan_music_library env ["a.mp3"] empty_db in
  analyze_audio_file env "a.mp3" = None
  ∧ scanned_files outcome.1 !! "a.mp3" = None
  ∧ res_new_files outcome.2 = 1%nat.
Proof. by vm_compute. Qed.

Lemma failed_analysis_keeps_row_but_is_counted_witness :
  let env := probe_times_out in
  let st := {| rows := ∅; files_found := 0; new_files := 0;
               updated_files := 0 |} in
  analyze_audio_file env "a.mp3" = None
  ∧ scanned_files (scan_music_library env ["a.mp3"] empty_db).1 !! "a.mp3"
    = scanned_files empty_db !! "a.mp3"
  ∧ rows (scan_file env st "a.mp3") = rows st
  ∧ files_found (scan_file env st "a.mp3") = 1%nat
  ∧ new_files (scan_file env st "a.mp3") = 1%nat
  ∧ updated_files (scan_file env st "a.mp3") = 0%nat.
Proof.
  intros env st.
  assert (Hfail : analyze_audio_file env "a.mp3" = None) by reflexivity.
  destruct (failed_analysis_keeps_row_but_is_counted
              env ["a.mp3"] empty_db "a.mp3" Hfail) as [Hrow Hstep].
  destruct (Hstep st {| st_size := 1000; st_mtime := 1700000000 |}
              eq_refl eq_refl) as (Hrows & Hfound & Hnew & Hupd).
  repeat split; assumption.
Defined.



Lemma scan_never_deletes_rows_witness :
  is_Some (scanned_files stale_db !! "gone.mp3")
  ∧ is_Some (scanned_files
               (scan_music_library probe_succeeds ["a.mp3"; "b.mp3"] stale_db).1
             !! "gone.mp3").
Proof.
  assert (Hbefore : is_Some (scanned_files stale_db !! "gone.mp3")).
  { exists stale_row. by vm_compute. }
  split; [exact Hbefore |].
  exact (scan_never_deletes_rows probe_succeeds ["a.mp3"; "b.mp3"] stale_db
           "gone.mp3" Hbefore).
Defined.

(** ** Fingerprints *)

(** A readable file of 1000 bytes, shorter than 128 KiB, has no hash. *)
Lemma short_file_has_no_hash :
  (Z.of_nat (length short_file) < 2 * READ_WINDOW)%Z
  ∧ get_file_hash digest (Some short_file) = None.
Proof. by vm_compute. Qed.

Lemma get_file_hash_null_iff_shorter_than_window_witness :
  (READ_WINDOW ≤ Z.of_nat (length window_file) ≤ 2 * READ_WINDOW)%Z
  ∧ get_file_hash digest (Some window_file)
    = Some (digest (take (Z.to_nat READ_WINDOW) window_file
                    ++ drop (length window_file - Z.to_nat READ_WINDOW)
                         window_file)%list).
Proof.
  assert (Hlen : (READ_WINDOW ≤ Z.of_nat (length window_file)
                  ≤ 2 * READ_WINDOW)%Z).
  { unfold window_file. rewrite length_replicate.
    pose proof READ_WINDOW_value. lia. }
  split; [exact Hlen |].
  destruct (get_file_hash_null_iff_shorter_than_window
              digest (Some window_file)) as [_ Hcover].
  exact (proj1 (Hcover window_file eq_refl Hlen)).
Defined.

(** ** Queries *)

(** The query key ["F♯"] does not reach a row stored under ["F♯m"]:
    F♯ minor is the relative minor of A major, not of F♯ major. *)
Lemma F_sharp_minor_row_is_not_found :
  let library := [row "F♯m" 120] in
  row "F♯m" 120 ∈ library
  ∧ ("F♯m" ∉ get_all_compatible_keys (Some "F♯"))
  ∧ get_compatible_tracks (Some library) 120 "F♯" 2 = []
  ∧ (columns (row "F♯m" 120) ∉ get_compatible_tracks (Some library) 120 "F♯" 2).
Proof.
  intros library. split; [by left |]. split; [by_evaluation |].
  assert (Hnone : get_compatible_tracks (Some library) 120 "F♯" 2 = [])
    by (by vm_compute).
  split; [exact Hnone |]. rewrite Hnone. apply not_elem_of_nil.
Qed.

Lemma relative_minor_of_F_sharp_is_found_witness :
  let library := [row "F♯m" 120; row "D♯m" 121] in
  columns (row "D♯m" 121) ∈ get_compatible_tracks (Some library) 120 "F♯" 2
  ∧ compatibility_level "F♯" (track_key (columns (row "D♯m" 121))) = Good.
Proof.
  intros library.
  apply (relative_minor_of_F_sharp_is_found library (row "D♯m" 121) 121 120 2).
  - right. left.
  - reflexivity.
  - reflexivity.
  - by vm_compute.
  - by vm_compute.
  - reflexivity.
  - vm_compute. lia.
Defined.



End Concrete.

(** * Further properties of the key model *)

Section Strip.

Implicit Types (l p : list ascii) (pats : list (list ascii)).

Lemma is_prefix_spec p l : Py.is_prefix p l = true ↔ p `prefix_of` l.
Proof.
  revert l. induction p as [| a p IH]; intros l; cbn.
  - split; [intros _; apply prefix_nil | done].
  - destruct l as [| b l].
    + split; [done |]. intros [k Hk]. discriminate Hk.
    + case_decide as Hab.
      * subst b. rewrite IH. split.
        -- apply prefix_cons.
        -- apply prefix_cons_inv_2.
      * split; [done |]. intros Hpre. by apply prefix_cons_inv_1 in Hpre.
Qed.

Lemma find_none_iff {A} (f : A → bool) (xs : list A) :
  List.find f xs = None ↔ ∀ x, x ∈ xs → f x = false.
Proof.
  split.
  - intros Hnone x Hx. apply (List.find_none f xs Hnone). by apply list_elem_of_In.
  - induction xs as [| x xs IH]; intros Hall; [done |].
    cbn. rewrite (Hall x) by (by left). apply IH. intros y Hy. apply Hall. by right.
Qed.

(** A text with no pattern in front is left alone. *)
Lemma drop_leading_clean pats fuel l :
  List.find (fun p => Py.is_prefix p l) pats = None →
  Py.drop_leading pats fuel l = l.
Proof. intros Hnone. destruct fuel; [done |]. cbn. by rewrite Hnone. Qed.

(** With enough fuel nothing is left in front. *)
Lemma drop_leading_result_clean pats fuel l :
  Forall (fun p => p ≠ []) pats → (length l ≤ fuel)%nat →
  List.find (fun p => Py.is_prefix p (Py.drop_leading pats fuel l)) pats = None.
Proof.
  intros Hpats. revert l. induction fuel as [| fuel IH]; intros l Hlen.
  - destruct l; [| cbn in Hlen; lia]. cbn.
    apply find_none_iff. intros p Hp.
    rewrite Forall_forall in Hpats. specialize (Hpats p Hp).
    by destruct p.
  - cbn. destruct (List.find (fun p => Py.is_prefix p l) pats) as [p |] eqn:Hfind;
      [| done].
    apply IH. rewrite length_drop.
    apply List.find_some in Hfind as [Hp _]. apply list_elem_of_In in Hp.
    rewrite Forall_forall in Hpats. specialize (Hpats p Hp).
    destruct p; [done |]. cbn. lia.
Qed.

(** What is left is an end piece of the text. *)
Lemma drop_leading_suffix pats fuel l :
  Py.drop_leading pats fuel l `suffix_of` l.
Proof.
  revert l. induction fuel as [| fuel IH]; intros l; [done |].
  cbn. destruct (List.find (fun p => Py.is_prefix p l) pats) as [p |]; [| done].
  etrans; [apply IH |]. apply suffix_drop.
Qed.

Lemma find_prefix_none_mono pats l l' :
  l' `prefix_of` l →
  List.find (fun p => Py.is_prefix p l) pats = None →
  List.find (fun p => Py.is_prefix p l') pats = None.
Proof.
  intros Hpre Hnone. apply find_none_iff. intros p Hp.
  pose proof (proj1 (find_none_iff _ _) Hnone p Hp) as Hl. cbn in Hl.
  destruct (Py.is_prefix p l') eqn:Hl'; [| done].
  apply is_prefix_spec in Hl'.
  assert (Py.is_prefix p l = true) as Habs
    by (apply is_prefix_spec; by etrans).
  congruence.
Qed.

Lemma whitespace_nonempty :
  Forall (fun p : list ascii => p ≠ []) Py.whitespace
  ∧ Forall (fun p : list ascii => p ≠ []) (reverse <$> Py.whitespace).
Proof. by_evaluation. Qed.

Lemma lstrip_clean l :
  List.find (fun p => Py.is_prefix p (Py.lstrip l)) Py.whitespace = None.
Proof.
  apply drop_leading_result_clean; [apply whitespace_nonempty | done].
Qed.

Lemma rstrip_prefix l : Py.rstrip l `prefix_of` l.
Proof.
  pose proof (drop_leading_suffix (reverse <$> Py.whitespace) (length l)
                (reverse l)) as Hsuffix.
  apply suffix_prefix_reverse in Hsuffix.
  by rewrite reverse_involutive in Hsuffix.
Qed.

Lemma rstrip_clean l :
  List.find (fun p => Py.is_prefix p (reverse (Py.rstrip l)))
            (reverse <$> Py.whitespace) = None.
Proof.
  unfold Py.rstrip. rewrite reverse_involutive.
  apply drop_leading_result_clean;
    [apply whitespace_nonempty | by rewrite length_reverse].
Qed.

Lemma strip_bytes_fixed l :
  Py.lstrip (Py.rstrip (Py.lstrip l)) = Py.rstrip (Py.lstrip l)
  ∧ Py.rstrip (Py.rstrip (Py.lstrip l)) = Py.rstrip (Py.lstrip l).
Proof.
  split.
  - apply drop_leading_clean.
    apply (find_prefix_none_mono _ (Py.lstrip l)); [apply rstrip_prefix |].
    apply lstrip_clean.
  - unfold Py.rstrip at 1. rewrite drop_leading_clean by apply rstrip_clean.
    apply reverse_involutive.
Qed.

(** [s.strip().strip() == s.strip()] *)
Lemma strip_idempotent s : Py.strip (Py.strip s) = Py.strip s.
Proof.
  unfold Py.strip. rewrite list_ascii_of_string_of_list_ascii.
  destruct (strip_bytes_fixed (list_ascii_of_string s)) as [-> ->]. done.
Qed.

End Strip.

Section KeyModelFurther.

Implicit Types (key : option string) (n k : string).

Lemma swapped_items_lookup c t :
  camelot_to_traditional !! c = Some t →
  (c, t) ∈ alternative_notation_items ∨ (t, c) ∈ camelot_mapping_items.
Proof.
  unfold camelot_to_traditional. intros Hc.
  apply dict_update_lookup in Hc as [Hin | Hc]; [by left |].
  apply dict_of_items_lookup in Hc. right.
  apply list_elem_of_fmap in Hc as ([t' c'] & Heq & Hin). by simplify_eq.
Qed.

(** Every traditional key the Camelot dictionary yields is a non-empty
    fixed point of [normalize_key]. *)
Lemma camelot_to_traditional_value c t :
  camelot_to_traditional !! c = Some t →
  t ≠ "" ∧ normalize_key (Some t) = Some t.
Proof.
  intros Hc.
  assert (Halt : Forall (fun kv : string * string =>
                   kv.2 ≠ "" ∧ normalize_key (Some kv.2) = Some kv.2)
                 alternative_notation_items) by by_evaluation.
  assert (Hcam : Forall (fun kv : string * string =>
                   kv.1 ≠ "" ∧ normalize_key (Some kv.1) = Some kv.1)
                 camelot_mapping_items) by by_evaluation.
  rewrite Forall_forall in Halt, Hcam.
  destruct (swapped_items_lookup c t Hc) as [Hin | Hin].
  - apply (Halt _ Hin).
  - apply (Hcam _ Hin).
Qed.

Lemma normalize_key_cases s :
  s ≠ "" →
  let k := Py.strip s in
  (k = "D♯m/E♭m" ∧ normalize_key (Some s) = Some "D♯m")
  ∨ (k = "F♯/G♭" ∧ normalize_key (Some s) = Some "F♯")
  ∨ (∃ t, k ≠ "D♯m/E♭m" ∧ k ≠ "F♯/G♭" ∧ camelot_to_traditional !! k = Some t
          ∧ normalize_key (Some s) = Some t)
  ∨ (k ≠ "D♯m/E♭m" ∧ k ≠ "F♯/G♭" ∧ camelot_to_traditional !! k = None
     ∧ normalize_key (Some s) = Some k).
Proof.
  intros Hs k. unfold normalize_key, Py.truthy.
  rewrite (proj2 (String.eqb_neq s "") Hs). cbn [negb]. fold k.
  destruct (String.eqb_spec k "D♯m/E♭m") as [H1 | H1];
    [left; split; [exact H1 | reflexivity] |].
  destruct (String.eqb_spec k "F♯/G♭") as [H2 | H2];
    [right; left; split; [exact H2 | reflexivity] |].
  destruct (camelot_to_traditional !! k) as [t |] eqn:Hk.
  - right. right. left. exists t. repeat split; assumption || reflexivity.
  - right. right. right. repeat split; assumption || reflexivity.
Qed.

Lemma normalize_key_fixed_point key n :
  normalize_key key = Some n → n ≠ "" → normalize_key (Some n) = Some n.
Proof.
  destruct key as [s |]; [| done]. intros Hn Hne.
  destruct (decide (s = "")) as [-> | Hs]; [done |].
  destruct (normalize_key_cases s Hs)
    as [[_ H] | [[_ H] | [(t & _ & _ & Ht & H) | (H1 & H2 & Hk & H)]]];
    rewrite H in Hn; injection Hn as <-.
  - vm_compute. reflexivity.
  - vm_compute. reflexivity.
  - apply (camelot_to_traditional_value _ _ Ht).
  - destruct (normalize_key_cases (Py.strip s) Hne)
      as [[Hk' _] | [[Hk' _] | [(t & _ & _ & Ht & _) | (_ & _ & _ & H')]]];
      rewrite strip_idempotent in *; [congruence .. | exact H'].
Qed.

Lemma normalize_key_empty_result s :
  normalize_key (Some s) = Some "" ↔ s ≠ "" ∧ Py.strip s = "".
Proof.
  split.
  - intros Hn. destruct (decide (s = "")) as [-> | Hs]; [done |].
    split; [done |].
    destruct (normalize_key_cases s Hs)
      as [[_ H] | [[_ H] | [(t & _ & _ & Ht & H) | (_ & _ & _ & H)]]];
      rewrite H in Hn.
    + discriminate Hn.
    + discriminate Hn.
    + injection Hn as ->. by destruct (camelot_to_traditional_value _ _ Ht).
    + by injection Hn.
  - intros [Hs Hk].
    assert (Hnone : camelot_to_traditional !! "" = None) by (by vm_compute).
    destruct (normalize_key_cases s Hs)
      as [[Hk' _] | [[Hk' _] | [(t & _ & _ & Ht & _) | (_ & _ & _ & H)]]].
    + rewrite Hk in Hk'. discriminate Hk'.
    + rewrite Hk in Hk'. discriminate Hk'.
    + rewrite Hk, Hnone in Ht. discriminate Ht.
    + by rewrite Hk in H.
Qed.

Lemma normalize_key_some s : s ≠ "" → is_Some (normalize_key (Some s)).
Proof.
  intros Hs.
  destruct (normalize_key_cases s Hs)
    as [[_ H] | [[_ H] | [(t & _ & _ & _ & H) | (_ & _ & _ & H)]]];
    rewrite H; eauto.
Qed.

Lemma get_all_compatible_keys_unfold key :
  get_all_compatible_keys key
  = match normalize_key key with
    | Some n =>
        if String.eqb n "" then ∅
        else all_notations (default [n] (harmonic_compatibility !! n))
    | None => ∅
    end.
Proof.
  unfold get_all_compatible_keys, all_notations, Py.truthy.
  destruct (normalize_key key) as [n |]; [| reflexivity].
  destruct (String.eqb n ""); reflexivity.
Qed.

Lemma foldl_add_camelot_subseteq (s : gset string) (l : list string) :
  s ⊆ foldl add_camelot s l.
Proof.
  revert s. induction l as [| k l IH]; intros s; [done |].
  cbn [foldl]. etrans; [| apply IH].
  unfold add_camelot. destruct (camelot_mapping !! k); set_solver.
Qed.

Lemma foldl_add_alternative_subseteq (s : gset string) (l : list string) :
  s ⊆ foldl add_alternative s l.
Proof.
  revert s. induction l as [| k l IH]; intros s; [done |].
  cbn [foldl]. etrans; [| apply IH].
  unfold add_alternative.
  destruct (String.eqb k "D♯m"); [set_solver |].
  destruct (String.eqb k "F♯"); set_solver.
Qed.

Lemma all_notations_contains (l : list string) k : k ∈ l → k ∈ all_notations l.
Proof.
  intros Hk. unfold all_notations.
  apply foldl_add_alternative_subseteq, foldl_add_camelot_subseteq.
  by apply elem_of_list_to_set.
Qed.

(** Every row of the table lists its own key. *)
Lemma table_row_lists_its_key n (l : list string) :
  harmonic_compatibility !! n = Some l → n ∈ l.
Proof.
  intros Hn. apply dict_of_items_lookup in Hn.
  assert (Hall : Forall (fun kv : string * list string => kv.1 ∈ kv.2)
                        harmonic_compatibility_items) by by_evaluation.
  rewrite Forall_forall in Hall. apply (Hall _ Hn).
Qed.

Lemma compatible_keys_contains_normalized key n :
  normalize_key key = Some n → n ≠ "" → n ∈ get_all_compatible_keys key.
Proof.
  intros Hn Hne. rewrite get_all_compatible_keys_unfold, Hn.
  rewrite (proj2 (String.eqb_neq n "") Hne).
  apply all_notations_contains.
  destruct (harmonic_compatibility !! n) as [l |] eqn:Hrow; cbn.
  - by apply table_row_lists_its_key.
  - by left.
Qed.

Lemma compatible_keys_of_normalized key :
  get_all_compatible_keys (normalize_key key) = get_all_compatible_keys key.
Proof.
  rewrite !get_all_compatible_keys_unfold.
  destruct (normalize_key key) as [n |] eqn:Hn; [| reflexivity].
  destruct (String.eqb_spec n "") as [-> | Hne]; [reflexivity |].
  rewrite (normalize_key_fixed_point key n Hn Hne).
  by rewrite (proj2 (String.eqb_neq n "") Hne).
Qed.

(** A key without a row has no Camelot code and no alternative spelling. *)
Lemma unknown_key_notations n :
  harmonic_compatibility !! n = None → all_notations [n] = {[ n ]}.
Proof.
  intros Hrow.
  assert (Hcam : camelot_mapping !! n = None).
  { destruct (camelot_mapping !! n) as [c |] eqn:Hc; [| done].
    apply dict_of_items_lookup in Hc.
    assert (Hall : Forall (fun kv : string * string =>
                      is_Some (harmonic_compatibility !! kv.1))
                   camelot_mapping_items) by by_evaluation.
    rewrite Forall_forall in Hall. destruct (Hall _ Hc) as [l Hl].
    cbn [fst] in Hl. rewrite Hrow in Hl. discriminate Hl. }
  assert (Hsharp : n ≠ "D♯m" ∧ n ≠ "F♯").
  { split; intros ->; revert Hrow; vm_compute; discriminate. }
  unfold all_notations. cbn [foldl]. unfold add_camelot. rewrite Hcam.
  assert (Hset : (list_to_set [n] : gset string) = {[ n ]})
    by apply (right_id_L (∅ : gset string) (∪)).
  rewrite Hset, elements_singleton. cbn [foldl]. unfold add_alternative.
  destruct Hsharp as [HD HF].
  by rewrite (proj2 (String.eqb_neq _ _) HD), (proj2 (String.eqb_neq _ _) HF).
Qed.

Lemma compatible_keys_of_unknown key n :
  normalize_key key = Some n → n ≠ "" →
  harmonic_compatibility !! n = None →
  get_all_compatible_keys key = {[ n ]}.
Proof.
  intros Hn Hne Hrow. rewrite get_all_compatible_keys_unfold, Hn.
  rewrite (proj2 (String.eqb_neq n "") Hne), Hrow. cbn [default].
  by apply unknown_key_notations.
Qed.

(** X1.  [normalize_key] is idempotent: normalising its result again
    changes nothing, the one exception being a result that is the empty
    string. *)
Theorem normalize_key_idempotent key :
  normalize_key key ≠ Some "" →
  normalize_key (normalize_key key) = normalize_key key.
Proof.
  intros Hne. destruct (normalize_key key) as [n |] eqn:Hn; [| done].
  apply (normalize_key_fixed_point key n Hn). congruence.
Qed.

(** X2.  [normalize_key] returns [None] for [None] and for the empty
    string only.  A non-empty string of white space is not treated as
    missing: it normalises to the empty string, and only normalising that
    again gives [None]. *)
Theorem normalize_key_null_and_blank key :
  (normalize_key key = None ↔ key = None ∨ key = Some "")
  ∧ ∀ s, key = Some s → s ≠ "" → Py.strip s = "" →
         normalize_key key = Some ""
         ∧ normalize_key (normalize_key key) = None.
Proof.
  split.
  - split.
    + destruct key as [s |]; [| by left]. intros Hnone. right.
      destruct (decide (s = "")) as [-> | Hs]; [done |].
      destruct (normalize_key_some s Hs) as [n Hn]. congruence.
    + intros [-> | ->]; reflexivity.
  - intros s -> Hs Hblank.
    assert (Hn : normalize_key (Some s) = Some "")
      by (by apply normalize_key_empty_result).
    by rewrite Hn.
Qed.

(** X3.  The normalised form of a key is compatible with the key: it is
    a member of the set [get_all_compatible_keys] returns, whenever that
    normalised form is not empty. *)
Theorem compatible_keys_reflexive key n :
  normalize_key key = Some n → n ≠ "" → n ∈ get_all_compatible_keys key.
Proof. apply compatible_keys_contains_normalized. Qed.

(** X4.  [get_all_compatible_keys] depends on its argument through
    [normalize_key] only: a key and its normalised form have the same
    compatible set, whatever the notation of the key. *)
Theorem compatible_keys_notation_invariant key :
  get_all_compatible_keys (normalize_key key) = get_all_compatible_keys key.
Proof. apply compatible_keys_of_normalized. Qed.

(** X5.  [get_all_compatible_keys] returns the empty set exactly for
    [None] and for strings that are empty once stripped; for every other
    input the set is inhabited. *)
Theorem compatible_keys_empty_iff_blank key :
  get_all_compatible_keys key = ∅ ↔
    key = None ∨ ∃ s, key = Some s ∧ Py.strip s = "".
Proof.
  split.
  - intros Hempty. destruct key as [s |]; [| by left]. right.
    exists s. split; [done |].
    destruct (decide (s = "")) as [-> | Hs]; [by vm_compute |].
    destruct (normalize_key_some s Hs) as [n Hn].
    destruct (decide (n = "")) as [-> | Hne].
    + by apply normalize_key_empty_result in Hn as [_ ?].
    + pose proof (compatible_keys_contains_normalized _ _ Hn Hne) as Hin.
      rewrite Hempty in Hin. destruct (not_elem_of_empty (C:=gset string) n Hin).
  - intros [-> | (s & -> & Hblank)]; [reflexivity |].
    rewrite get_all_compatible_keys_unfold.
    destruct (decide (s = "")) as [-> | Hs]; [reflexivity |].
    by rewrite (proj2 (normalize_key_empty_result s) (conj Hs Hblank)).
Qed.

(** X6.  A key that has no row in the compatibility table is compatible
    with itself only: the set is the singleton of its normalised form,
    without Camelot or alternative spellings. *)
Theorem unknown_key_is_compatible_with_itself_only key n :
  normalize_key key = Some n → n ≠ "" →
  harmonic_compatibility !! n = None →
  get_all_compatible_keys key = {[ n ]}.
Proof. apply compatible_keys_of_unknown. Qed.

End KeyModelFurther.

(** * Further properties of the compatibility query *)

Section QueryFurther.

Implicit Types (r : library_row) (t : track) (library : list library_row).

Lemma where_clause_spec lo hi (keys : gset string) r :
  where_clause lo hi keys r = true ↔
    ∃ b k, track_bpm (columns r) = Some b ∧ track_key (columns r) = Some k
           ∧ mixxx_deleted r = Some 0%Z
           ∧ (lo <= b)%Q ∧ (b <= hi)%Q ∧ k ∈ keys.
Proof.
  unfold where_clause.
  destruct (track_bpm (columns r)) as [b |];
    [| split; [discriminate | intros (? & ? & ? & _); discriminate]].
  destruct (track_key (columns r)) as [k |];
    [| split; [discriminate | intros (? & ? & _ & ? & _); discriminate]].
  destruct (mixxx_deleted r) as [d |];
    [| split; [discriminate | intros (? & ? & _ & _ & ? & _); discriminate]].
  rewrite !andb_true_iff, !Qle_bool_iff, bool_decide_eq_true, Z.eqb_eq.
  split.
  - intros [[[Hlo Hhi] Hk] ->]. exists b, k. repeat split; assumption.
  - intros (b' & k' & Hb & Hk & Hd & Hlo & Hhi & Hin).
    injection Hb as <-. injection Hk as <-. injection Hd as ->.
    repeat split; assumption.
Qed.

Lemma matching_rows_spec library current_bpm current_key bpm_tolerance r :
  r ∈ matching_rows library current_bpm current_key bpm_tolerance ↔
    r ∈ library
    ∧ where_clause (current_bpm - bpm_tolerance) (current_bpm + bpm_tolerance)
                   (query_keys current_key) r = true.
Proof.
  unfold matching_rows. fold (query_keys current_key).
  rewrite list_elem_of_filter. tauto.
Qed.

Lemma result_from_matching_row library current_bpm current_key bpm_tolerance t :
  t ∈ get_compatible_tracks (Some library) current_bpm current_key bpm_tolerance →
  ∃ r, t = columns r
       ∧ r ∈ matching_rows library current_bpm current_key bpm_tolerance.
Proof.
  rewrite get_compatible_tracks_unfold. intros Ht.
  apply list_elem_of_fmap in Ht as (r & -> & Hr). exists r. split; [reflexivity |].
  apply elem_of_take in Hr as (i & Hr & _).
  apply list_elem_of_lookup_2 in Hr. by rewrite merge_sort_Permutation in Hr.
Qed.


#[local] Existing Instance order_by_transitive.
#[local] Existing Instance order_by_total.

(** X8.  The limit cuts the worst-ranked rows: the matching rows split
    into the rows returned and the rows dropped, the number returned is
    the smaller of 50 and the number of matching rows, and every returned
    row precedes every dropped row in the order of the query. *)
Theorem limit_keeps_best_rows library current_bpm current_key bpm_tolerance :
  ∃ kept dropped,
    get_compatible_tracks (Some library) current_bpm current_key bpm_tolerance
    = columns <$> kept
    ∧ kept ++ dropped
      ≡ₚ matching_rows library current_bpm current_key bpm_tolerance
    ∧ length kept
      = min 50 (length (matching_rows library current_bpm current_key
                                      bpm_tolerance))
    ∧ ∀ x y, x ∈ kept → y ∈ dropped → order_by current_key current_bpm x y.
Proof.
  set (selected := matching_rows library current_bpm current_key bpm_tolerance).
  set (sorted := merge_sort (order_by current_key current_bpm) selected).
  exists (take LIMIT sorted), (drop LIMIT sorted).
  split; [apply get_compatible_tracks_unfold |].
  split; [rewrite take_drop; apply merge_sort_Permutation |].
  split.
  - rewrite length_take, LIMIT_value. unfold sorted.
    by rewrite merge_sort_Permutation.
  - intros x y Hx Hy.
    apply (StronglySorted_app_1_elem_of _ (take LIMIT sorted) (drop LIMIT sorted));
      [| done | done].
    rewrite take_drop. apply StronglySorted_merge_sort; apply _.
Qed.

(** X9.  When at most 50 rows match, nothing is lost: the result lists
    the selected columns of exactly the matching rows, each as often as
    it matches. *)
Theorem under_limit_every_match_is_returned
    library current_bpm current_key bpm_tolerance :
  (length (matching_rows library current_bpm current_key bpm_tolerance)
   ≤ LIMIT)%nat →
  get_compatible_tracks (Some library) current_bpm current_key bpm_tolerance
  ≡ₚ columns <$> matching_rows library current_bpm current_key bpm_tolerance.
Proof.
  intros Hfew. rewrite get_compatible_tracks_unfold.
  rewrite take_ge by (by rewrite merge_sort_Permutation).
  by rewrite merge_sort_Permutation.
Qed.

Lemma compatible_table_closed K (S : gset string) k :
  (K, S) ∈ compatible_table → k ∈ S →
  ∃ nk : string, normalize_key (Some k) = Some nk ∧ nk ∈ S.
Proof.
  intros HK Hk.
  assert (Hall : forallb closed_under_normalize compatible_table = true)
    by (vm_compute; reflexivity).
  rewrite forallb_forall in Hall.
  specialize (Hall (K, S) (proj1 (list_elem_of_In _ _) HK)).
  unfold closed_under_normalize in Hall. rewrite forallb_forall in Hall.
  cbn [snd] in Hall.
  assert (Hin : In k (elements S)) by (by apply list_elem_of_In, elem_of_elements).
  specialize (Hall k Hin).
  destruct (normalize_key (Some k)) as [nk |]; [| discriminate Hall].
  exists nk. split; [reflexivity |]. cbn in Hall.
  by apply bool_decide_eq_true in Hall.
Qed.

Lemma table_key_in_compatible_table n (l : list string) :
  harmonic_compatibility !! n = Some l →
  (n, get_all_compatible_keys (Some n)) ∈ compatible_table.
Proof.
  intros Hn. apply dict_of_items_lookup in Hn.
  unfold compatible_table, table_keys. apply list_elem_of_fmap.
  exists n. split; [reflexivity |]. apply list_elem_of_fmap.
  by exists (n, l).
Qed.

(** Normalising a spelling of the IN-list gives the normalised query key
    or a member of its compatible set. *)
Lemma query_keys_closed current_key k :
  k ∈ query_keys current_key →
  normalize_key (Some k) = normalize_key (Some current_key)
  ∨ ∃ nk : string,
      normalize_key (Some k) = Some nk
      ∧ nk ∈ get_all_compatible_keys (normalize_key (Some current_key)).
Proof.
  unfold query_keys. case_bool_decide as Hempty.
  - intros Hk. apply elem_of_singleton in Hk as ->. by left.
  - intros Hk.
    destruct (normalize_key (Some current_key)) as [n |] eqn:Hn.
    2:{ exfalso. apply Hempty. rewrite get_all_compatible_keys_unfold, Hn.
        reflexivity. }
    assert (Hne : n ≠ "").
    { intros ->. apply Hempty. rewrite get_all_compatible_keys_unfold, Hn.
      reflexivity. }
    pose proof (compatible_keys_of_normalized (Some current_key)) as Hsame.
    rewrite Hn in Hsame.
    destruct (harmonic_compatibility !! n) as [l |] eqn:Hrow.
    + right. rewrite <- Hsame in Hk.
      apply (compatible_table_closed n); [| exact Hk].
      by apply (table_key_in_compatible_table n l).
    + left. rewrite (compatible_keys_of_unknown _ n Hn Hne Hrow) in Hk.
      apply elem_of_singleton in Hk as ->.
      apply (normalize_key_fixed_point _ _ Hn Hne).
Qed.

(** X11.  The tier of a returned track is never [OK]: every track
    [get_compatible_tracks] returns for a query key is tagged [Perfect]
    or [Good] under that key. *)
Theorem returned_tracks_are_perfect_or_good
    mixxx_db current_bpm current_key bpm_tolerance t :
  t ∈ get_compatible_tracks mixxx_db current_bpm current_key bpm_tolerance →
  compatibility_level current_key (track_key t) ≠ OK.
Proof.
  destruct mixxx_db as [library |]; [| intros Ht; by apply elem_of_nil in Ht].
  intros Ht. apply result_from_matching_row in Ht as (r & -> & Hr).
  apply matching_rows_spec in Hr as [_ Hwhere].
  apply where_clause_spec in Hwhere as (b & k & _ & Hk & _ & _ & _ & Hkeys).
  rewrite Hk. unfold compatibility_level. cbn zeta.
  case_bool_decide as Hperfect; [discriminate |].
  destruct (query_keys_closed current_key k Hkeys) as [Heq | (nk & Hnk & Hin)];
    [contradiction |].
  rewrite Hnk. rewrite (bool_decide_eq_true_2 _ Hin). discriminate.
Qed.

End QueryFurther.

(** * Further properties of the library scan *)

Section ScanFurther.

Implicit Types (env : environment) (st : scan_state) (p q : string)
  (audio_files : list string).

(** The starting state of the loop. *)
Lemma scan_music_library_rows env audio_files db :
  scanned_files (scan_music_library env audio_files db).1
  = rows (foldl (scan_file env)
                {| rows := scanned_files db; files_found := 0;
                   new_files := 0; updated_files := 0 |}
                audio_files).
Proof. reflexivity. Qed.

Lemma scan_loop_other env audio_files st p :
  p ∉ audio_files →
  rows (foldl (scan_file env) st audio_files) !! p = rows st !! p.
Proof.
  revert st. induction audio_files as [| q audio_files IH]; intros st Hp;
    [reflexivity |].
  apply not_elem_of_cons in Hp as [Hne Hp]. cbn [foldl].
  rewrite IH by exact Hp. by apply scan_file_other.
Qed.

(** One iteration never lowers a counter and keeps the sum of the new and
    updated files at most the number of files found. *)
Lemma scan_file_counters env st q :
  (new_files st ≤ new_files (scan_file env st q))%nat
  ∧ (updated_files st ≤ updated_files (scan_file env st q))%nat
  ∧ ((new_files st + updated_files st ≤ files_found st)%nat →
     (new_files (scan_file env st q) + updated_files (scan_file env st q)
      ≤ files_found (scan_file env st q))%nat).
Proof.
  unfold scan_file. destruct (stat env q) as [s |]; [| cbn beta iota; lia].
  destruct (path_encodable q); cbn [negb]; [| cbn beta iota; lia].
  destruct (rows st !! q) as [e |];
    [destruct (hash_differs _ _ || mtime_differs _ _) |];
    cbn beta iota zeta;
    cbn [rows files_found new_files updated_files]; lia.
Qed.


(** X12.  A scan leaves the rows of all paths outside its candidate list
    exactly as they were. *)
Theorem scan_leaves_unlisted_paths_alone env audio_files db p :
  p ∉ audio_files →
  scanned_files (scan_music_library env audio_files db).1 !! p
  = scanned_files db !! p.
Proof.
  intros Hp. rewrite scan_music_library_rows. by rewrite scan_loop_other.
Qed.

(** X13.  In the aggregate a scan returns, the new and the updated files
    together are at most the files found, and the files found are at most
    the candidates. *)
Theorem scan_counts_are_bounded env audio_files db :
  let result := (scan_music_library env audio_files db).2 in
  (res_new_files result + res_updated_files result ≤ res_files_found result)%nat
  ∧ (res_files_found result ≤ length audio_files)%nat.
Proof.
  intros result. subst result. unfold scan_music_library.
  cbn [snd res_new_files res_updated_files res_files_found]. split.
  - apply (scan_loop_invariant env
             (fun st => (new_files st + updated_files st ≤ files_found st)%nat));
      [| cbn; lia].
    intros st q. apply scan_file_counters.
  - rewrite scan_loop_files_found. cbn [files_found].
    pose proof (length_filter (fun p => is_Some (stat env p)
                                        ∧ path_encodable p = true)
                              audio_files). lia.
Qed.

(** A second pass over files whose [stat] and hash are as in the first
    pass writes nothing and counts nothing as new or updated. *)
Lemma rescan_with_same_fingerprints env1 env2 audio_files audio_files' st0 :
  audio_files' ≡ₚ audio_files →
  (∀ p, p ∈ audio_files →
        stat env2 p = stat env1 p ∧ current_hash env2 p = current_hash env1 p) →
  (∀ p s, p ∈ audio_files → stat env1 p = Some s →
          needs_analysis env1 (rows st0) p s = true →
          is_Some (analyze_audio_file env1 p)) →
  let st1 := foldl (scan_file env1) st0 audio_files in
  let st2 := foldl (scan_file env2)
                   {| rows := rows st1; files_found := 0;
                      new_files := 0; updated_files := 0 |} audio_files' in
  rows st2 = rows st1 ∧ new_files st2 = 0%nat ∧ updated_files st2 = 0%nat.
Proof.
  intros Hperm Hsame Hok st1 st2. subst st2.
  apply (scan_loop_up_to_date env2 audio_files'
           {| rows := rows st1; files_found := 0;
              new_files := 0; updated_files := 0 |}).
  intros p Hp. cbn [rows]. rewrite Hperm in Hp.
  pose proof (scan_loop_brings_up_to_date env1 audio_files st0 Hok p Hp) as H1.
  fold st1 in H1. destruct (Hsame p Hp) as [Hs Hh].
  unfold up_to_date, needs_analysis in *. by rewrite Hs, Hh.
Qed.

(** X14.  Scanning an unchanged directory a second time writes nothing:
    when every candidate keeps its [stat] result and its content hash and
    every analysis the first scan needed succeeded, the table of scanned
    files after the second scan is the table after the first. *)
Theorem rescan_writes_nothing env1 env2 audio_files audio_files' db :
  audio_files' ≡ₚ audio_files →
  (∀ p, p ∈ audio_files →
        stat env2 p = stat env1 p ∧ current_hash env2 p = current_hash env1 p) →
  (∀ p s, p ∈ audio_files → stat env1 p = Some s →
          needs_analysis env1 (scanned_files db) p s = true →
          is_Some (analyze_audio_file env1 p)) →
  let first := scan_music_library env1 audio_files db in
  let second := scan_music_library env2 audio_files' first.1 in
  scanned_files second.1 = scanned_files first.1.
Proof.
  intros Hperm Hsame Hok first second. subst first second.
  rewrite !scan_music_library_rows.
  apply (rescan_with_same_fingerprints env1 env2 audio_files audio_files'
           {| rows := scanned_files db; files_found := 0;
              new_files := 0; updated_files := 0 |} Hperm Hsame Hok).
Qed.

(** A readable file shorter than the read window has no content hash. *)
Lemma current_hash_short env p bytes :
  file_bytes env p = Some bytes →
  (Z.of_nat (length bytes) < READ_WINDOW)%Z →
  current_hash env p = None.
Proof.
  intros Hb Hlen. unfold current_hash, get_file_hash.
  by rewrite Hb, hashed_bytes_short.
Qed.

(** X15.  Changes to files shorter than 64 KiB go unnoticed when the
    modification time is kept: if every candidate is, in both runs, a
    readable file below the read window with the same [stat] result, the
    second scan reports no new and no updated file, whatever the bytes of
    the files have become. *)
Theorem rescan_misses_changes_in_short_files
    env1 env2 audio_files audio_files' db :
  audio_files' ≡ₚ audio_files →
  (∀ p, p ∈ audio_files →
        stat env2 p = stat env1 p
        ∧ ∃ bytes1 bytes2,
            file_bytes env1 p = Some bytes1 ∧ file_bytes env2 p = Some bytes2
            ∧ (Z.of_nat (length bytes1) < READ_WINDOW)%Z
            ∧ (Z.of_nat (length bytes2) < READ_WINDOW)%Z) →
  (∀ p s, p ∈ audio_files → stat env1 p = Some s →
          needs_analysis env1 (scanned_files db) p s = true →
          is_Some (analyze_audio_file env1 p)) →
  let first := scan_music_library env1 audio_files db in
  let second := scan_music_library env2 audio_files' first.1 in
  res_new_files second.2 = 0%nat ∧ res_updated_files second.2 = 0%nat.
Proof.
  intros Hperm Hshort Hok first second. subst first second.
  unfold scan_music_library.
  cbn [fst snd scanned_files res_new_files res_updated_files].
  apply (rescan_with_same_fingerprints env1 env2 audio_files audio_files'
           {| rows := scanned_files db; files_found := 0;
              new_files := 0; updated_files := 0 |} Hperm); [| exact Hok].
  intros p Hp. destruct (Hshort p Hp) as (Hs & b1 & b2 & Hb1 & Hb2 & Hl1 & Hl2).
  split; [exact Hs |].
  by rewrite (current_hash_short env1 p b1), (current_hash_short env2 p b2).
Qed.

(** What [analyze_audio_file] returns never carries a tempo or a key. *)
Lemma analysis_has_no_tempo_or_key env p a :
  analyze_audio_file env p = Some a → an_bpm a = None ∧ an_key a = None.
Proof.
  unfold analyze_audio_file.
  destruct (ffprobe env p) as [| returncode [d |]]; try discriminate;
    destruct (negb (returncode =? 0)%Z); try discriminate.
  intros Ha. injection Ha as <-. by split.
Qed.

Lemma scan_file_row env st q p :
  rows (scan_file env st q) !! p = rows st !! p
  ∨ ∃ e, rows (scan_file env st q) !! p = Some e ∧ written_row env p e.
Proof.
  destruct (decide (p = q)) as [-> | Hne]; [| left; by apply scan_file_other].
  unfold scan_file. destruct (stat env q) as [s |] eqn:Hs; [| by left].
  destruct (path_encodable q); cbn [negb]; [| by left].
  assert (Hwrite : ∀ a, analyze_audio_file env q = Some a →
            written_row env q
              {| sf_file_hash := get_file_hash (md5 env) (file_bytes env q);
                 sf_file_size := st_size s;
                 sf_last_modified := st_mtime s;
                 sf_bpm := an_bpm a; sf_key := an_key a;
                 sf_duration := an_duration a; sf_artist := an_artist a;
                 sf_title := an_title a; sf_album := an_album a;
                 sf_genre := an_genre a |}).
  { intros a Ha. destruct (analysis_has_no_tempo_or_key env q a Ha) as [Hb Hk].
    exists s, a. cbn. repeat split; assumption || reflexivity. }
  destruct (rows st !! q) as [e |] eqn:Hrow;
    [destruct (hash_differs _ _ || mtime_differs _ _) |];
    cbn beta iota zeta;
    try (destruct (analyze_audio_file env q) as [a |] eqn:Ha);
    cbn [rows]; try (left; exact Hrow); try (left; reflexivity);
    right; rewrite lookup_insert_eq; eexists; split;
      try reflexivity; by apply Hwrite.
Qed.

(** X16.  Every row a scan changes or creates describes the file as the
    scan saw it: the row of a path after the scan is either the row
    before it, or a row holding the current content hash, size and
    modification time of the file, the metadata of its successful
    analysis, and neither a tempo nor a key. *)
Theorem scan_writes_current_fingerprint_and_no_tempo_or_key
    env audio_files db p :
  scanned_files (scan_music_library env audio_files db).1 !! p
  = scanned_files db !! p
  ∨ ∃ e s a,
      scanned_files (scan_music_library env audio_files db).1 !! p = Some e
      ∧ stat env p = Some s ∧ analyze_audio_file env p = Some a
      ∧ sf_file_hash e = current_hash env p
      ∧ sf_file_size e = st_size s
      ∧ sf_last_modified e = st_mtime s
      ∧ sf_bpm e = None ∧ sf_key e = None
      ∧ sf_duration e = an_duration a
      ∧ sf_artist e = an_artist a ∧ sf_title e = an_title a
      ∧ sf_album e = an_album a ∧ sf_genre e = an_genre a.
Proof.
  rewrite scan_music_library_rows.
  cut (rows (foldl (scan_file env)
               {| rows := scanned_files db; files_found := 0;
                  new_files := 0; updated_files := 0 |} audio_files) !! p
       = scanned_files db !! p
       ∨ ∃ e, rows (foldl (scan_file env)
                      {| rows := scanned_files db; files_found := 0;
                         new_files := 0; updated_files := 0 |} audio_files) !! p
              = Some e ∧ written_row env p e).
  { intros [Hkeep | (e & He & s & a & Hw)]; [by left | right].
    exists e, s, a. by split. }
  apply (scan_loop_invariant env
           (fun st => rows st !! p = scanned_files db !! p
                      ∨ ∃ e, rows st !! p = Some e ∧ written_row env p e));
    [| by left].
  intros st q Hst.
  destruct (scan_file_row env st q p) as [Hsame | Hnew]; [| by right].
  rewrite Hsame. exact Hst.
Qed.




(** X18.  After a scan, every candidate whose [stat], lookup and analysis
    succeed has a row in step with the file: the row holds the current
    content hash and a modification time equal to the current one. *)
Theorem scanned_file_is_up_to_date_afterwards env audio_files db p s :
  p ∈ audio_files → stat env p = Some s → path_encodable p = true →
  is_Some (analyze_audio_file env p) →
  ∃ e, scanned_files (scan_music_library env audio_files db).1 !! p = Some e
       ∧ sf_file_hash e = current_hash env p
       ∧ (sf_last_modified e == st_mtime s)%Q.
Proof.
  intros Hp Hs Henc Han. rewrite scan_music_library_rows.
  apply list_elem_of_split in Hp as (l1 & l2 & ->).
  rewrite foldl_app. cbn [foldl].
  set (st := foldl (scan_file env) _ l1).
  assert (Hup : up_to_date env
                  (rows (foldl (scan_file env) (scan_file env st p) l2)) p).
  { apply (scan_loop_invariant env (fun st' => up_to_date env (rows st') p)).
    - intros st' q. apply scan_file_preserves_up_to_date.
    - apply scan_file_brings_up_to_date. intros _ _ _. exact Han. }
  unfold up_to_date, needs_analysis in Hup. rewrite Hs, Henc in Hup.
  cbn [andb] in Hup.
  destruct (rows (foldl (scan_file env) (scan_file env st p) l2) !! p)
    as [e |]; [| discriminate Hup].
  apply orb_false_iff in Hup as [Hhash Hmtime].
  exists e. split; [reflexivity |]. split.
  - unfold hash_differs in Hhash. apply negb_false_iff in Hhash.
    by apply bool_decide_eq_true in Hhash.
  - unfold mtime_differs in Hmtime. apply negb_false_iff in Hmtime.
    by apply Qeq_bool_iff.
Qed.

End ScanFurther.

(** * Further properties of the content fingerprint *)

Section FingerprintFurther.

Variable md5_hexdigest : list Byte.byte → string.

(** X19.  A change in the middle of a large file is not seen by the
    fingerprint: replacing a byte that lies behind the first 64 KiB and
    before the last 64 KiB leaves the hash as it was. *)
Theorem get_file_hash_ignores_the_middle (bytes : list Byte.byte) (i : nat) x :
  (READ_WINDOW ≤ Z.of_nat i)%Z →
  (Z.of_nat i + READ_WINDOW < Z.of_nat (length bytes))%Z →
  get_file_hash md5_hexdigest (Some (<[i := x]> bytes))
  = get_file_hash md5_hexdigest (Some bytes).
Proof.
  intros Hlo Hhi. pose proof READ_WINDOW_value as HW.
  unfold get_file_hash.
  rewrite !hashed_bytes_long by (rewrite ?length_insert; lia).
  rewrite length_insert.
  rewrite take_insert_ge by lia. rewrite drop_insert_lt by lia. reflexivity.
Qed.

(** X20.  The fingerprint reads a fixed amount: for every readable file
    of at least 64 KiB the bytes fed to the hash are exactly 128 KiB,
    whatever the size of the file. *)
Theorem hashed_bytes_have_fixed_length (bytes : list Byte.byte) :
  (READ_WINDOW ≤ Z.of_nat (length bytes))%Z →
  ∃ hashed,
    hashed_bytes (Some bytes) = Some hashed
    ∧ Z.of_nat (length hashed) = (2 * READ_WINDOW)%Z.
Proof.
  intros Hlen. pose proof READ_WINDOW_value as HW.
  rewrite hashed_bytes_long by exact Hlen. eexists. split; [reflexivity |].
  rewrite length_app, length_take, length_drop. lia.
Qed.

End FingerprintFurther.

(** * Properties of the duration display *)

Section Duration.

Lemma Qfloor_unique (x : Q) (z : Z) :
  (inject_Z z <= x)%Q → (x < inject_Z (z + 1))%Q → Qfloor x = z.
Proof.
  intros Hlo Hhi.
  pose proof (Qfloor_le x) as Hfl. pose proof (Qlt_floor x) as Hlt.
  assert (H1 : (inject_Z z < inject_Z (Qfloor x + 1))%Q) by lra.
  assert (H2 : (inject_Z (Qfloor x) < inject_Z (z + 1))%Q) by lra.
  rewrite <- Zlt_Qlt in H1, H2. lia.
Qed.

Lemma int_of_float_integer (z : Z) : int_of_float (inject_Z z) = z.
Proof.
  unfold int_of_float. destruct (Qle_bool 0 (inject_Z z));
    [apply Qfloor_Z | apply Qceiling_Z].
Qed.

(** The floor of the quotient by 60 is the quotient of the floor. *)
Lemma Qfloor_div_60 (s : Q) : Qfloor (s / 60) = (Qfloor s / 60)%Z.
Proof.
  apply Qfloor_unique.
  - pose proof (Qfloor_le s) as Hfl.
    pose proof (Z.mul_div_le (Qfloor s) 60 ltac:(lia)) as Hz.
    rewrite Zle_Qle, inject_Z_mult in Hz.
    change (inject_Z 60) with 60%Q in Hz.
    unfold Qdiv. change (/ 60)%Q with (1 # 60)%Q. lra.
  - pose proof (Qlt_floor s) as Hlt.
    pose proof (Z.mul_succ_div_gt (Qfloor s) 60 ltac:(lia)) as Hz.
    assert (Hz' : (Qfloor s + 1 <= 60 * (Qfloor s / 60 + 1))%Z) by lia.
    rewrite Zle_Qle, inject_Z_mult in Hz'.
    change (inject_Z 60) with 60%Q in Hz'.
    unfold Qdiv. change (/ 60)%Q with (1 # 60)%Q. lra.
Qed.

(** The whole part of the remainder is the floor modulo 60. *)
Lemma int_of_remainder_60 (s : Q) :
  int_of_float (s - 60 * inject_Z (Qfloor (s / 60))) = (Qfloor s mod 60)%Z.
Proof.
  rewrite Qfloor_div_60.
  pose proof (Qfloor_le s) as Hfl. pose proof (Qlt_floor s) as Hlt.
  pose proof (Z.mod_pos_bound (Qfloor s) 60 ltac:(lia)) as Hmod.
  pose proof (Z.div_mod (Qfloor s) 60 ltac:(lia)) as Hdiv.
  assert (Hq : inject_Z (Qfloor s)
               == 60 * inject_Z (Qfloor s / 60) + inject_Z (Qfloor s mod 60)).
  { rewrite Hdiv at 1. rewrite inject_Z_plus, inject_Z_mult. reflexivity. }
  assert (H0 : (0 <= inject_Z (Qfloor s mod 60))%Q)
    by (rewrite <- (Zle_Qle 0); lia).
  rewrite inject_Z_plus in Hlt. change (inject_Z 1) with 1%Q in Hlt.
  unfold int_of_float.
  rewrite (proj2 (Qle_bool_iff _ _)) by lra.
  apply Qfloor_unique; [lra |].
  rewrite inject_Z_plus. change (inject_Z 1) with 1%Q. lra.
Qed.

Lemma format_02d_width :
  forallb (fun n => (String.length (format_02d (Z.of_nat n)) =? 2)%nat)
          (seq 0 60)
  = true.
Proof. vm_compute. reflexivity. Qed.

(** X21.  For every duration from 0 up to, but not including, 2^53
    seconds, [format_duration] shows the whole seconds, rounded down:
    their quotient by 60 in decimal, a colon, and their remainder, which
    is between 0 and 59, in exactly two characters. *)
Theorem format_duration_closed_form (s : Q) :
  (0 <= s)%Q → (s < EXACT_BELOW)%Q →
  let whole := Qfloor s in
  format_duration (Some s)
  = Some (str_of_int (whole / 60) ++ ":" ++ format_02d (whole mod 60))
  ∧ String.length (format_02d (whole mod 60)) = 2%nat.
Proof.
  intros Hlo Hhi whole. subst whole. split.
  - unfold format_duration. destruct (Qeq_bool s 0) eqn:Hzero.
    + apply Qeq_bool_iff in Hzero. rewrite (Qfloor_comp _ _ Hzero). reflexivity.
    + unfold float_floordiv_60, float_mod_60, divides_exactly.
      rewrite (proj2 (Qle_bool_iff 0 s) Hlo).
      destruct (Qle_bool EXACT_BELOW s) eqn:Hover.
      { apply Qle_bool_iff in Hover. lra. }
      cbn [andb negb]. cbn zeta.
      rewrite int_of_remainder_60, Qfloor_div_60, int_of_float_integer.
      reflexivity.
  - pose proof (Z.mod_pos_bound (Qfloor s) 60 ltac:(lia)) as Hmod.
    pose proof format_02d_width as Hall. rewrite forallb_forall in Hall.
    specialize (Hall (Z.to_nat (Qfloor s mod 60))).
    rewrite Z2Nat.id in Hall by lia. apply Nat.eqb_eq, Hall.
    apply in_seq. lia.
Qed.

End Duration.

(** * How the compatible set is expanded *)

Section KeyModelExpansion.

Implicit Types (key : option string) (n k c : string) (l : list string).

Lemma recognised_spellings_ok :
  forallb recognised_spelling_ok
          (alternative_notation_items.*1 ++ camelot_mapping_items.*2)
  = true.
Proof. vm_compute. reflexivity. Qed.

(** X22.  A recognised Camelot spelling stands for its traditional key:
    every string the Camelot dictionary maps normalises to the key the
    dictionary gives, that key has a row in the compatibility table, and
    the spelling and the key have the same compatible set. *)
Theorem camelot_spelling_stands_for_its_key c n :
  camelot_to_traditional !! c = Some n →
  normalize_key (Some c) = Some n
  ∧ is_Some (harmonic_compatibility !! n)
  ∧ get_all_compatible_keys (Some c) = get_all_compatible_keys (Some n).
Proof.
  intros Hc.
  assert (Hin : In c (alternative_notation_items.*1 ++ camelot_mapping_items.*2)).
  { apply list_elem_of_In, elem_of_app.
    destruct (swapped_items_lookup c n Hc) as [H | H]; [left | right];
      apply list_elem_of_fmap; eexists; (split; [| exact H]); reflexivity. }
  pose proof recognised_spellings_ok as Hall. rewrite forallb_forall in Hall.
  specialize (Hall c Hin). unfold recognised_spelling_ok in Hall.
  rewrite Hc in Hall. cbn [from_option] in Hall.
  apply andb_true_iff in Hall as [Hnorm Hrow].
  apply bool_decide_eq_true in Hnorm, Hrow.
  split; [exact Hnorm |]. split; [exact Hrow |].
  rewrite <- (compatible_keys_of_normalized (Some c)). by rewrite Hnorm.
Qed.

Lemma foldl_add_camelot_adds (s : gset string) l k c :
  k ∈ l → camelot_mapping !! k = Some c →
  c ∈ foldl add_camelot s l ∧ c ++ " (" ++ k ++ ")" ∈ foldl add_camelot s l.
Proof.
  intros Hk Hc. revert s. induction l as [| k' l IH]; intros s.
  { by apply elem_of_nil in Hk. }
  cbn [foldl]. apply elem_of_cons in Hk as [<- | Hk]; [| by apply IH].
  assert (Hboth : c ∈ add_camelot s k ∧ c ++ " (" ++ k ++ ")" ∈ add_camelot s k).
  { unfold add_camelot. rewrite Hc. split.
    - apply elem_of_union_r, elem_of_union_l, elem_of_singleton. reflexivity.
    - apply elem_of_union_l, elem_of_singleton. reflexivity. }
  destruct Hboth as [H1 H2].
  split; by apply foldl_add_camelot_subseteq.
Qed.

(** X23.  The compatible set of a key with a row holds every key of that
    row, and for each of them that has a Camelot code, the code and the
    combined spelling made of the code and the key in brackets. *)
Theorem compatible_set_holds_all_notations_of_the_row key n l k :
  normalize_key key = Some n → n ≠ "" →
  harmonic_compatibility !! n = Some l → k ∈ l →
  k ∈ get_all_compatible_keys key
  ∧ ∀ c, camelot_mapping !! k = Some c →
         c ∈ get_all_compatible_keys key
         ∧ c ++ " (" ++ k ++ ")" ∈ get_all_compatible_keys key.
Proof.
  intros Hn Hne Hrow Hk. rewrite get_all_compatible_keys_unfold, Hn.
  rewrite (proj2 (String.eqb_neq n "") Hne), Hrow. cbn [default].
  split; [by apply all_notations_contains |].
  intros c Hc. unfold all_notations.
  destruct (foldl_add_camelot_adds (list_to_set l) l k c Hk Hc) as [H1 H2].
  split; by apply foldl_add_alternative_subseteq.
Qed.

End KeyModelExpansion.

(** * The further properties at concrete inputs *)

Section ConcreteFurther.

Import Examples MoreExamples.

(** ** Key model *)

Lemma normalize_key_idempotent_witness :
  normalize_key (Some " 8B ") = Some "C"
  ∧ normalize_key (normalize_key (Some " 8B ")) = normalize_key (Some " 8B ").
Proof.
  split; [vm_compute; reflexivity |].
  apply (normalize_key_idempotent (Some " 8B ")).
  vm_compute. discriminate.
Defined.

Lemma normalize_key_null_and_blank_witness :
  normalize_key (Some "  ") = Some ""
  ∧ normalize_key (normalize_key (Some "  ")) = None.
Proof.
  apply (proj2 (normalize_key_null_and_blank (Some "  ")) "  ").
  - reflexivity.
  - discriminate.
  - vm_compute. reflexivity.
Defined.

Lemma compatible_keys_reflexive_witness :
  "C" ∈ get_all_compatible_keys (Some "8B").
Proof.
  apply (compatible_keys_reflexive (Some "8B") "C").
  - vm_compute. reflexivity.
  - discriminate.
Defined.

Lemma compatible_keys_empty_iff_blank_witness :
  get_all_compatible_keys (Some "  ") = ∅.
Proof.
  apply (proj2 (compatible_keys_empty_iff_blank (Some "  "))).
  right. exists "  ". split; [reflexivity | vm_compute; reflexivity].
Defined.

Lemma unknown_key_is_compatible_with_itself_only_witness :
  get_all_compatible_keys (Some "H") = {[ "H" ]}.
Proof.
  apply (unknown_key_is_compatible_with_itself_only (Some "H") "H").
  - vm_compute. reflexivity.
  - discriminate.
  - vm_compute. reflexivity.
Defined.

Lemma camelot_spelling_stands_for_its_key_witness :
  normalize_key (Some "8B (C)") = Some "C"
  ∧ is_Some (harmonic_compatibility !! "C")
  ∧ get_all_compatible_keys (Some "8B (C)") = get_all_compatible_keys (Some "C").
Proof.
  apply (camelot_spelling_stands_for_its_key "8B (C)" "C").
  vm_compute. reflexivity.
Defined.

Lemma compatible_set_holds_all_notations_of_the_row_witness :
  "Am" ∈ get_all_compatible_keys (Some "8B")
  ∧ ∀ c, camelot_mapping !! "Am" = Some c →
         c ∈ get_all_compatible_keys (Some "8B")
         ∧ c ++ " (" ++ "Am" ++ ")" ∈ get_all_compatible_keys (Some "8B").
Proof.
  apply (compatible_set_holds_all_notations_of_the_row
           (Some "8B") "C" ["C"; "F"; "G"; "Am"; "Dm"; "Em"] "Am").
  - vm_compute. reflexivity.
  - discriminate.
  - vm_compute. reflexivity.
  - do 3 right. left.
Defined.

(** ** Queries *)

Lemma mixed_library_results :
  get_compatible_tracks (Some mixed_library) 120 "C" 2
  = [columns (row "C" 122); columns (row "G" 120);
     columns (row "Am" (241 # 2))].
Proof. vm_compute. reflexivity. Qed.


Lemma limit_keeps_best_rows_witness :
  ∃ kept dropped,
    get_compatible_tracks (Some mixed_library) 120 "C" 2 = columns <$> kept
    ∧ kept ++ dropped ≡ₚ matching_rows mixed_library 120 "C" 2
    ∧ length kept = min 50 (length (matching_rows mixed_library 120 "C" 2))
    ∧ ∀ x y, x ∈ kept → y ∈ dropped → order_by "C" 120 x y.
Proof. exact (limit_keeps_best_rows mixed_library 120 "C" 2). Defined.

Lemma under_limit_every_match_is_returned_witness :
  (length (matching_rows mixed_library 120 "C" 2) ≤ LIMIT)%nat
  ∧ get_compatible_tracks (Some mixed_library) 120 "C" 2
    ≡ₚ columns <$> matching_rows mixed_library 120 "C" 2.
Proof.
  assert (Hfew : (length (matching_rows mixed_library 120 "C" 2) ≤ LIMIT)%nat)
    by (vm_compute; lia).
  split; [exact Hfew |].
  exact (under_limit_every_match_is_returned mixed_library 120 "C" 2 Hfew).
Defined.

Lemma returned_tracks_are_perfect_or_good_witness :
  compatibility_level "C" (track_key (columns (row "Am" (241 # 2)))) ≠ OK.
Proof.
  apply (returned_tracks_are_perfect_or_good (Some mixed_library) 120 "C" 2).
  rewrite mixed_library_results. do 2 right. left.
Defined.

(** ** Scans *)

Lemma scan_leaves_unlisted_paths_alone_witness :
  scanned_files (scan_music_library probe_succeeds ["a.mp3"; "b.mp3"] stale_db).1
    !! "gone.mp3"
  = scanned_files stale_db !! "gone.mp3".
Proof.
  apply (scan_leaves_unlisted_paths_alone probe_succeeds ["a.mp3"; "b.mp3"]
           stale_db "gone.mp3").
  apply (bool_decide_unpack _). vm_compute. exact I.
Defined.

Lemma candidates_hash_alike p :
  p ∈ ["a.mp3"; "b.mp3"] →
  current_hash edited_directory p = current_hash probe_succeeds p.
Proof.
  intros Hp. apply elem_of_cons in Hp as [-> | Hp]; [vm_compute; reflexivity |].
  apply elem_of_cons in Hp as [-> | Hp]; [vm_compute; reflexivity |].
  by apply elem_of_nil in Hp.
Qed.

Lemma rescan_writes_nothing_witness :
  let first := scan_music_library probe_succeeds ["a.mp3"; "b.mp3"] empty_db in
  let second := scan_music_library edited_directory ["b.mp3"; "a.mp3"] first.1 in
  scanned_files second.1 = scanned_files first.1.
Proof.
  apply (rescan_writes_nothing probe_succeeds edited_directory
           ["a.mp3"; "b.mp3"] ["b.mp3"; "a.mp3"] empty_db).
  - apply perm_swap.
  - intros p Hp. split; [reflexivity | by apply candidates_hash_alike].
  - intros p s _ _ _. eexists. reflexivity.
Defined.

Lemma rescan_misses_changes_in_short_files_witness :
  let first := scan_music_library probe_succeeds ["a.mp3"] empty_db in
  let second := scan_music_library edited_directory ["a.mp3"] first.1 in
  file_bytes edited_directory "a.mp3" ≠ file_bytes probe_succeeds "a.mp3"
  ∧ res_new_files second.2 = 0%nat ∧ res_updated_files second.2 = 0%nat.
Proof.
  intros first second. split; [vm_compute; discriminate |].
  apply (rescan_misses_changes_in_short_files probe_succeeds edited_directory
           ["a.mp3"] ["a.mp3"] empty_db).
  - reflexivity.
  - intros p Hp. apply list_elem_of_singleton in Hp as ->.
    split; [reflexivity |].
    exists short_file, (replicate 1000 Byte.x01).
    repeat split; vm_compute; reflexivity.
  - intros p s _ _ _. eexists. reflexivity.
Defined.


Lemma scanned_file_is_up_to_date_afterwards_witness :
  ∃ e,
    scanned_files (scan_music_library probe_succeeds ["b.mp3"; "a.mp3"]
                     stale_db).1 !! "a.mp3" = Some e
    ∧ sf_file_hash e = current_hash probe_succeeds "a.mp3"
    ∧ (sf_last_modified e == 1700000000)%Q.
Proof.
  apply (scanned_file_is_up_to_date_afterwards probe_succeeds
           ["b.mp3"; "a.mp3"] stale_db "a.mp3"
           {| st_size := 1000; st_mtime := 1700000000 |}).
  - right. left.
  - reflexivity.
  - vm_compute. reflexivity.
  - eexists. reflexivity.
Defined.

Lemma format_duration_closed_form_witness :
  format_duration (Some (18537 # 100))
  = Some (str_of_int (Qfloor (18537 # 100) / 60) ++ ":"
          ++ format_02d (Qfloor (18537 # 100) mod 60))
  ∧ String.length (format_02d (Qfloor (18537 # 100) mod 60)) = 2%nat.
Proof.
  apply (format_duration_closed_form (18537 # 100)).
  - vm_compute. discriminate.
  - vm_compute. reflexivity.
Defined.

(** ** Fingerprints *)

Lemma get_file_hash_ignores_the_middle_witness :
  get_file_hash digest (Some (<[Z.to_nat 70000 := Byte.x01]> large_file))
  = get_file_hash digest (Some large_file).
Proof.
  pose proof READ_WINDOW_value as HW.
  apply (get_file_hash_ignores_the_middle digest large_file (Z.to_nat 70000)
           Byte.x01).
  - lia.
  - unfold large_file. rewrite length_replicate. lia.
Defined.

Lemma hashed_bytes_have_fixed_length_witness :
  ∃ hashed,
    hashed_bytes (Some window_file) = Some hashed
    ∧ Z.of_nat (length hashed) = (2 * READ_WINDOW)%Z.
Proof.
  pose proof READ_WINDOW_value as HW.
  apply (hashed_bytes_have_fixed_length window_file).
  unfold window_file. rewrite length_replicate. lia.
Defined.

End ConcreteFurther.
